(** * Rule matching and idempotent action engine (src/rules/engine.py)

    A shallow embedding of [RulesEngine] and of the tables it reads
    and writes (src/database/models.py), with the properties of its
    matcher, its processed-email ledger and its action loop. *)

From Stdlib Require Import ZArith Ascii String Lia.
From stdpp Require Import base decidable option list strings.

Set Default Proof Using "Type".

Local Open Scope string_scope.
Local Open Scope list_scope.

(** ** Rows of the tables (src/database/models.py) *)

(** A [datetime] is a count of microseconds; it is naive
    ([datetime.utcnow()]) or carries an offset (the [%z] of
    [GmailClient.message_to_email]). *)
Inductive datetime : Type :=
| Naive (us : Z)
| Aware (us : Z).

Module Email.
Record t : Type := mk {
  gmail_id : string;
  from_address : string;
  subject : option string;
  content : option string;
  received_date : option datetime;
  is_read : bool;
  current_label : option string
}.
End Email.

Module Rule.
Record t : Type := mk {
  id : Z;
  name : string;
  identifier : string;
  predicate : string;
  active : bool
}.
End Rule.

Module RuleCondition.
Record t : Type := mk {
  rule_id : Z;
  field : string;
  predicate : string;
  value : string;
  unit : option string
}.
End RuleCondition.

Module RuleAction.
Record t : Type := mk {
  rule_id : Z;
  action_type : string;
  action_value : option string
}.
End RuleAction.

Module ProcessedEmail.
Record t : Type := mk {
  id : Z;
  gmail_id : string;
  rule_identifier : string;
  processed_at : Z
}.
End ProcessedEmail.

(** ** The Gmail client as seen by the engine

    The engine calls three methods of [GmailClient]; each returns a
    [bool].  A call is recorded with its arguments. *)
Inductive GmailCall : Type :=
| mark_as_read (msg_id : string)
| mark_as_unread (msg_id : string)
| move_message (msg_id : string) (destination : option string).

(** ** State

    The session's tables, the calls made to the Gmail client so far
    (oldest first), the number of times the wall clock was read, and the
    [Email] object that [process_email] received: the engine assigns to
    its attributes in place. *)
Record State : Type := mkState {
  db_rules : list Rule.t;
  db_rule_conditions : list RuleCondition.t;
  db_rule_actions : list RuleAction.t;
  db_processed_emails : list ProcessedEmail.t;
  gmail_calls : list GmailCall;
  clock_reads : nat;
  message : Email.t
}.

(** ** Exceptions that leave the engine *)
Inductive exn : Type :=
| UnboundLocalError
| OverflowError.

Inductive result (A : Type) : Type :=
| Return (a : A)
| Raise (e : exn).
Arguments Return {A} a.
Arguments Raise {A} e.

(** A computation reads and writes the state; when it raises, the state
    it had reached stays. *)
Definition M (A : Type) : Type := State -> result A * State.

Definition ret {A} (a : A) : M A := fun s => (Return a, s).

Definition bind {A B} (m : M A) (k : A -> M B) : M B :=
  fun s => match m s with
           | (Return a, s') => k a s'
           | (Raise e, s') => (Raise e, s')
           end.

Definition raise {A} (e : exn) : M A := fun s => (Raise e, s).

Definition gets {A} (f : State -> A) : M A := fun s => (Return (f s), s).

Definition modify (f : State -> State) : M unit := fun s => (Return tt, f s).

Declare Scope engine_scope.
Delimit Scope engine_scope with engine.
Notation "'let*' x := m 'in' k" := (bind m (fun x => k))
  (at level 10, x pattern, m at level 100, k at level 200) : engine_scope.
Notation "m ;; k" := (bind m (fun _ => k))
  (at level 100, k at level 200, right associativity) : engine_scope.
Local Open Scope engine_scope.

(** ** State updates *)

Definition set_processed_emails (l : list ProcessedEmail.t) (s : State) : State :=
  mkState (db_rules s) (db_rule_conditions s) (db_rule_actions s) l
          (gmail_calls s) (clock_reads s) (message s).

Definition set_gmail_calls (l : list GmailCall) (s : State) : State :=
  mkState (db_rules s) (db_rule_conditions s) (db_rule_actions s)
          (db_processed_emails s) l (clock_reads s) (message s).

Definition set_clock_reads (n : nat) (s : State) : State :=
  mkState (db_rules s) (db_rule_conditions s) (db_rule_actions s)
          (db_processed_emails s) (gmail_calls s) n (message s).

Definition set_message (e : Email.t) (s : State) : State :=
  mkState (db_rules s) (db_rule_conditions s) (db_rule_actions s)
          (db_processed_emails s) (gmail_calls s) (clock_reads s) e.

Definition with_is_read (b : bool) (e : Email.t) : Email.t :=
  Email.mk (Email.gmail_id e) (Email.from_address e) (Email.subject e)
           (Email.content e) (Email.received_date e) b (Email.current_label e).

Definition with_current_label (l : option string) (e : Email.t) : Email.t :=
  Email.mk (Email.gmail_id e) (Email.from_address e) (Email.subject e)
           (Email.content e) (Email.received_date e) (Email.is_read e) l.

Definition with_processed_at (t : Z) (r : ProcessedEmail.t) : ProcessedEmail.t :=
  ProcessedEmail.mk (ProcessedEmail.id r) (ProcessedEmail.gmail_id r)
                    (ProcessedEmail.rule_identifier r) t.

(** ** Strings *)

(** [needle in haystack] on Python strings. *)
Fixpoint str_in (needle haystack : string) : bool :=
  String.prefix needle haystack ||
  match haystack with
  | EmptyString => false
  | String _ rest => str_in needle rest
  end.

(** [x or ''] for an attribute that may be [None]. *)
Definition or_empty (x : option string) : string :=
  match x with
  | Some s => s
  | None => ""
  end.

(** [all(results)] and [any(results)]. *)
Fixpoint py_all (results : list bool) : bool :=
  match results with
  | [] => true
  | r :: rest => if r then py_all rest else false
  end.

Fixpoint py_any (results : list bool) : bool :=
  match results with
  | [] => false
  | r :: rest => if r then true else py_any rest
  end.

(** [max(records, key=...)]: the first element whose key is largest. *)
Fixpoint max_from {A} (key : A -> Z) (best : A) (l : list A) : A :=
  match l with
  | [] => best
  | x :: rest => max_from key (if (key best <? key x)%Z then x else best) rest
  end.

Definition py_max {A} (key : A -> Z) (first : A) (rest : list A) : A :=
  max_from key first rest.

(** ** Durations *)

Definition us_per_day : Z := 86400000000.

(** [timedelta(days=n)]: [OverflowError] beyond 999999999 days. *)
Definition timedelta_days (n : Z) : M Z :=
  if (Z.abs n <=? 999999999)%Z then ret (n * us_per_day)%Z
  else raise OverflowError.

(** [now - date] for a naive [now]: [None] is the [TypeError] of
    subtracting [None] or an offset-aware datetime. *)
Definition datetime_sub (now : Z) (date : option datetime) : option Z :=
  match date with
  | Some (Naive d) => Some (now - d)%Z
  | Some (Aware _) => None
  | None => None
  end.


(** ** Instances of the built-ins, for running the model

    [str.lower] and [int] are Python's; the engine is defined over any
    such pair.  These two cover ASCII letters and signed decimal
    numerals and serve to run the model on concrete rules. *)

Definition lower_ascii (c : ascii) : ascii :=
  let n := nat_of_ascii c in
  if (65 <=? n)%nat && (n <=? 90)%nat then ascii_of_nat (n + 32) else c.

Fixpoint ascii_lower (s : string) : string :=
  match s with
  | EmptyString => EmptyString
  | String c rest => String (lower_ascii c) (ascii_lower rest)
  end.

Definition digit_of (c : ascii) : option Z :=
  let n := nat_of_ascii c in
  if (48 <=? n)%nat && (n <=? 57)%nat then Some (Z.of_nat (n - 48)) else None.

Fixpoint read_digits (acc : Z) (s : string) : option Z :=
  match s with
  | EmptyString => Some acc
  | String c rest =>
      match digit_of c with
      | Some d => read_digits (10 * acc + d)%Z rest
      | None => None
      end
  end.

Definition read_decimal (s : string) : option Z :=
  match s with
  | EmptyString => None
  | String "-"%char (String c rest) => Z.opp <$> read_digits 0 (String c rest)
  | String "+"%char (String c rest) => read_digits 0 (String c rest)
  | String "-"%char EmptyString => None
  | String "+"%char EmptyString => None
  | _ => read_digits 0 s
  end.

(** ** Sample rows, clocks and clients

    A message, three rules and their conditions and actions, on which
    the model is run. *)
Module Sample.

Definition order_mail : Email.t :=
  Email.mk "m1" "noreply@zomato.com" (Some "Order confirmed") None
           (Some (Naive 0)) true (Some "INBOX").

(** from contains zomato.com: mark as unread. *)
Definition zomato : Rule.t := Rule.mk 1 "Zomato orders" "R1" "all" true.
(** subject contains order: no action. *)
Definition bare : Rule.t := Rule.mk 2 "Orders, no action" "R2" "any" true.
(** two conditions, predicate neither all nor any: read, then archive. *)
Definition filing : Rule.t := Rule.mk 3 "Filing" "R3" "ANY" true.
(** [zomato] after its identifier was changed. *)
Definition zomato_v2 : Rule.t := Rule.mk 1 "Zomato orders" "R1-v2" "all" true.

Definition conditions : list RuleCondition.t :=
  [ RuleCondition.mk 1 "from" "contains" "ZOMATO.com" None;
    RuleCondition.mk 2 "subject" "contains" "order" None;
    RuleCondition.mk 3 "from" "equals" "nobody" None;
    RuleCondition.mk 3 "received_date" "greater_than" "1" (Some "months") ].

Definition actions : list RuleAction.t :=
  [ RuleAction.mk 1 "mark_as_unread" None;
    RuleAction.mk 3 "mark_as_read" None;
    RuleAction.mk 3 "move_message" (Some "Archive") ].

Definition negative_days : RuleCondition.t :=
  RuleCondition.mk 4 "received_date" "greater_than" "-1" (Some "days").

(** The message was received 45 days before the first clock reading. *)
Definition clock (k : nat) : Z := (45 * us_per_day + Z.of_nat k)%Z.

Definition accepts : list GmailCall -> GmailCall -> bool := fun _ _ => true.
Definition refuses : list GmailCall -> GmailCall -> bool := fun _ _ => false.
(** Refuses its first call and accepts the later ones. *)
Definition refuses_once : list GmailCall -> GmailCall -> bool :=
  fun calls _ => match calls with [] => false | _ => true end.

Definition state (rules : list Rule.t) (ledger : list ProcessedEmail.t) : State :=
  mkState rules conditions actions ledger [] 0 order_mail.

Definition row_R1 : ProcessedEmail.t := ProcessedEmail.mk 1 "m1" "R1" 7.

End Sample.

(** ** The Gmail client (src/gmail/client.py)

    The methods of [GmailClient] over the Gmail API service.  The
    service is remote: a request takes a state of the service to its
    response and the next state; [None] (or [false] for a request whose
    response is not used) is a request that raised. *)
Module GmailClient.

(** The resources of the API, with the keys the client reads.  A key
    that may be absent is an [option]. *)
Record Body : Type := mkBody { data : option string }.

Record Part : Type := mkPart {
  mimeType : option string;
  part_body : option Body
}.

Record Payload : Type := mkPayload {
  headers : option (list (string * string));
  body : option Body;
  parts : option (list Part)
}.

Record Message : Type := mkMessage {
  id : string;
  labelIds : option (list string);
  payload : option Payload
}.

(** A page of [messages.list]: the ids of its messages and the token
    of the next page. *)
Record Page : Type := mkPage {
  messages : option (list string);
  nextPageToken : option string
}.

(** What [list_messages] returns: both keys are present. *)
Record Listing : Type := mkListing {
  listed : list string;
  next : option string
}.

(** [message.get('labelIds', [])]. *)
Definition labels_of (m : Message) : list string := default [] (labelIds m).

(** [destination.startswith(('STARRED', 'IMPORTANT', 'UNREAD'))]. *)
Definition is_builtin (destination : string) : bool :=
  String.prefix "STARRED" destination
  || String.prefix "IMPORTANT" destination
  || String.prefix "UNREAD" destination.

(** Truth of [max_total] and of a page token in a condition. *)
Definition nonzero (n : option Z) : bool :=
  match n with Some k => negb (k =? 0)%Z | None => false end.

Definition nonempty (t : option string) : bool :=
  match t with Some k => negb (bool_decide (k = "")) | None => false end.

(** [_get_message_content]: [None] is the [KeyError] of a text/plain
    part without a body.  The payload is present when it is called from
    [message_to_email]. *)
Definition first_plain_part (ps : list Part) : option Part :=
  snd <$> list_find (fun p => mimeType p = Some "text/plain") ps.

Definition _get_message_content (m : Message) : option string :=
  match payload m with
  | None => Some ""
  | Some p =>
      match body p with
      | Some b => Some (default "" (data b))
      | None =>
          match first_plain_part (default [] (parts p)) with
          | Some part =>
              match part_body part with
              | Some b => Some (default "" (data b))
              | None => None
              end
          | None => Some ""
          end
      end
  end.

(** [{h['name']: h['value'] for h in ...}.get(name)]: the value of the
    last header of that name. *)
Definition header_get (name : string) (hs : list (string * string)) : option string :=
  snd <$> last (filter (fun h => h.1 = name) hs).

Section Service.

Context {Service : Type}.
Variable messages_get : string -> Service -> option Message * Service.
Variable messages_modify :
  string -> list string -> list string -> Service -> bool * Service.
Variable labels_list : Service -> option (list (string * string)) * Service.
Variable messages_list :
  option string -> option Z -> option string -> Service -> option Page * Service.

Definition get_message (msg_id : string) : Service -> option Message * Service :=
  messages_get msg_id.

Definition list_messages (query : option string) (max_results : option Z)
    (page_token : option string) (srv : Service) : Listing * Service :=
  match messages_list query max_results page_token srv with
  | (Some response, srv') =>
      (mkListing (default [] (messages response)) (nextPageToken response), srv')
  | (None, srv') => (mkListing [] None, srv')
  end.

(** The loop of [list_all_messages]; [None] when [fuel] rounds were
    not enough. *)
Fixpoint list_all_messages_loop (fuel : nat) (query : option string)
    (max_total : option Z) (fetched : list string) (page_token : option string)
    (srv : Service) : option (list string) * Service :=
  match fuel with
  | O => (None, srv)
  | S fuel' =>
      let remaining :=
        if nonzero max_total
        then (fun n => n - Z.of_nat (length fetched))%Z <$> max_total
        else None in
      if match remaining with Some r => (r <=? 0)%Z | None => false end
      then (Some fetched, srv)
      else
        let (response, srv') := list_messages query remaining page_token srv in
        let fetched' := fetched ++ listed response in
        let page_token' := next response in
        if negb (nonempty page_token')
           || (nonzero max_total
               && match max_total with
                  | Some n => (n <=? Z.of_nat (length fetched'))%Z
                  | None => false
                  end)
        then (Some fetched', srv')
        else list_all_messages_loop fuel' query max_total fetched' page_token' srv'
  end.

Definition list_all_messages (fuel : nat) (query : option string)
    (max_total : option Z) : Service -> option (list string) * Service :=
  list_all_messages_loop fuel query max_total [] None.

(** Two ways the API may behave.  It keeps to [maxResults]: a page
    asked with a positive [maxResults] carries at most that many
    messages. *)
Definition respects_max_results : Prop :=
  forall q r t srv page srv',
    (0 < r)%Z ->
    messages_list q (Some r) t srv = (Some page, srv') ->
    (Z.of_nat (length (default [] (messages page))) <= r)%Z.

(** A page that names a next page carries at least one message. *)
Definition pages_make_progress : Prop :=
  forall q r t srv page srv',
    messages_list q r t srv = (Some page, srv') ->
    nonempty (nextPageToken page) = true ->
    default [] (messages page) <> [].

Definition get_label_id (label_name : string) (srv : Service) : option string * Service :=
  match labels_list srv with
  | (Some labels, srv') =>
      (snd <$> (snd <$> list_find (fun l => l.1 = label_name) labels), srv')
  | (None, srv') => (None, srv')
  end.

Definition mark_as_read (msg_id : string) (srv : Service) : bool * Service :=
  match get_message msg_id srv with
  | (None, srv1) => (false, srv1)
  | (Some message, srv1) =>
      if bool_decide ("UNREAD" ∉ labels_of message) then (true, srv1)
      else
        match messages_modify msg_id [] ["UNREAD"] srv1 with
        | (false, srv2) => (false, srv2)
        | (true, srv2) =>
            match get_message msg_id srv2 with
            | (None, srv3) => (false, srv3)
            | (Some message', srv3) =>
                (bool_decide ("UNREAD" ∉ labels_of message'), srv3)
            end
        end
  end.

Definition mark_as_unread (msg_id : string) (srv : Service) : bool * Service :=
  match get_message msg_id srv with
  | (None, srv1) => (false, srv1)
  | (Some message, srv1) =>
      if bool_decide ("UNREAD" ∈ labels_of message) then (true, srv1)
      else
        match messages_modify msg_id ["UNREAD"] [] srv1 with
        | (false, srv2) => (false, srv2)
        | (true, srv2) =>
            match get_message msg_id srv2 with
            | (None, srv3) => (false, srv3)
            | (Some message', srv3) =>
                (bool_decide ("UNREAD" ∈ labels_of message'), srv3)
            end
        end
  end.

Definition move_message (msg_id : string) (destination : option string)
    (srv : Service) : bool * Service :=
  match get_message msg_id srv with
  | (None, srv1) => (false, srv1)
  | (Some message, srv1) =>
      match destination with
      | None => (false, srv1)
      | Some destination =>
          if is_builtin destination then
            match messages_modify msg_id [destination] [] srv1 with
            | (false, srv2) => (false, srv2)
            | (true, srv2) =>
                match get_message msg_id srv2 with
                | (None, srv3) => (false, srv3)
                | (Some message', srv3) =>
                    (bool_decide (destination ∈ labels_of message'), srv3)
                end
            end
          else
            match get_label_id destination srv1 with
            | (label_id, srv2) =>
                if negb (nonempty label_id) then (false, srv2)
                else
                  match messages_modify msg_id (option_list label_id)
                          ["INBOX"; "SPAM"; "TRASH"] srv2 with
                  | (false, srv3) => (false, srv3)
                  | (true, srv3) =>
                      match get_message msg_id srv3 with
                      | (None, srv4) => (false, srv4)
                      | (Some message', srv4) =>
                          match get_label_id destination srv4 with
                          | (Some label_id', srv5) =>
                              (bool_decide (label_id' ∈ labels_of message'), srv5)
                          | (None, srv5) => (false, srv5)
                          end
                      end
                  end
            end
      end
  end.

End Service.

(** A service that records the requests it receives; its answers may
    depend on the requests made so far. *)
Inductive Request : Type :=
| Get (msg_id : string)
| Modify (msg_id : string) (addLabelIds removeLabelIds : list string)
| Labels
| List (q : option string) (maxResults : option Z) (pageToken : option string).

Definition is_modify (r : Request) : bool :=
  match r with Modify _ _ _ => true | _ => false end.

Section Recorded.

Variable get_answer : list Request -> string -> option Message.
Variable modify_answer : list Request -> string -> list string -> list string -> bool.
Variable labels_answer : list Request -> option (list (string * string)).

Definition recorded_get (msg_id : string) (log : list Request)
    : option Message * list Request :=
  (get_answer log msg_id, log ++ [Get msg_id]).

Definition recorded_modify (msg_id : string) (add remove : list string)
    (log : list Request) : bool * list Request :=
  (modify_answer log msg_id add remove, log ++ [Modify msg_id add remove]).

Definition recorded_labels (log : list Request)
    : option (list (string * string)) * list Request :=
  (labels_answer log, log ++ [Labels]).

End Recorded.

End GmailClient.

(** ** The rules file (src/rules/schema.py)

    A configuration that the [RulesConfig] model has validated: the
    [Literal] fields hold one of their listed strings. *)
Module Schema.

Module Field.
Inductive t : Type := from | subject | message | received_date.
Definition name (f : t) : string :=
  match f with
  | from => "from"
  | subject => "subject"
  | message => "message"
  | received_date => "received_date"
  end.
End Field.

Module Predicate.
Inductive t : Type :=
| contains | does_not_contain | equals | does_not_equal
| less_than | greater_than.
Definition name (p : t) : string :=
  match p with
  | contains => "contains"
  | does_not_contain => "does_not_contain"
  | equals => "equals"
  | does_not_equal => "does_not_equal"
  | less_than => "less_than"
  | greater_than => "greater_than"
  end.
End Predicate.

Module Unit.
Inductive t : Type := days | months.
Definition name (u : t) : string :=
  match u with
  | days => "days"
  | months => "months"
  end.
End Unit.

Module ActionType.
Inductive t : Type := mark_as_read | mark_as_unread | move_message.
Definition name (a : t) : string :=
  match a with
  | mark_as_read => "mark_as_read"
  | mark_as_unread => "mark_as_unread"
  | move_message => "move_message"
  end.
End ActionType.

Module RulePredicate.
Inductive t : Type := all | any.
Definition name (p : t) : string :=
  match p with
  | all => "all"
  | any => "any"
  end.
End RulePredicate.

Module RuleCondition.
Record t : Type := mk {
  field : Field.t;
  predicate : Predicate.t;
  value : string;
  unit : option Unit.t
}.
End RuleCondition.

Module RuleAction.
Record t : Type := mk {
  type : ActionType.t;
  destination : option string
}.
End RuleAction.

Module Rule.
Record t : Type := mk {
  identifier : string;
  name : string;
  predicate : RulePredicate.t;
  conditions : list RuleCondition.t;
  actions : list RuleAction.t;
  active : bool
}.
End Rule.

Record RulesConfig : Type := mkRulesConfig { rules : list Rule.t }.

End Schema.

(** ** The batches of [main] (src/main.py)

    [for i in range(0, len(messages), BATCH_SIZE)] with
    [batch = messages[i:i + BATCH_SIZE]]. *)

Module Main.

Definition BATCH_SIZE : nat := 50.

(** [range(0, stop, step)] for a positive [step]: the multiples of
    [step] below [stop]. *)
Definition py_range (stop step : nat) : list nat :=
  (fun k => k * step) <$> seq 0 ((stop + step - 1) / step).

(** [l[i:j]] for [0 <= i <= j]. *)
Definition slice {A} (l : list A) (i j : nat) : list A := take (j - i) (drop i l).

Definition batches {A} (messages : list A) : list (list A) :=
  (fun i => slice messages i (i + BATCH_SIZE)) <$> py_range (length messages) BATCH_SIZE.

End Main.

(** ** A sample configuration and a sample mailbox *)

Module SampleConfig.

(** Keys as an auto-increment column gives them. *)
Definition next_id (ids : list Z) : Z := (1 + foldr Z.max 0 ids)%Z.

Definition rules_config : Schema.RulesConfig :=
  Schema.mkRulesConfig
    [ Schema.Rule.mk "R1" "Zomato orders" Schema.RulePredicate.all
        [ Schema.RuleCondition.mk Schema.Field.from Schema.Predicate.contains
            "zomato.com" None ]
        [ Schema.RuleAction.mk Schema.ActionType.mark_as_unread (Some "ignored") ]
        true;
      Schema.Rule.mk "R2" "Old mail" Schema.RulePredicate.any
        [ Schema.RuleCondition.mk Schema.Field.received_date
            Schema.Predicate.greater_than "1" (Some Schema.Unit.months) ]
        [ Schema.RuleAction.mk Schema.ActionType.move_message (Some "Archive") ]
        false ].

(** A sender that is to be 'less_than' two days. *)
Definition odd_condition : Schema.RuleCondition.t :=
  Schema.RuleCondition.mk Schema.Field.from Schema.Predicate.less_than "2"
    (Some Schema.Unit.days).

(** A [strptime] that knows one date. *)
Definition parse_date (s : string) : option Z :=
  if decide (s = "Thu, 01 Jan 1970 00:00:00 +0000") then Some 0%Z else None.

Definition api_message : GmailClient.Message :=
  GmailClient.mkMessage "m1" (Some ["INBOX"; "UNREAD"])
    (Some (GmailClient.mkPayload
             (Some [ ("From", "noreply@zomato.com");
                     ("Subject", "Order confirmed");
                     ("Date", "Thu, 01 Jan 1970 00:00:00 +0000") ])
             (Some (GmailClient.mkBody (Some "aGVsbG8=")))
             None)).

(** A mailbox of three messages, listed in one page that keeps to
    [maxResults]. *)
Definition mailbox : list string := ["m1"; "m2"; "m3"].

Definition one_page (q : option string) (max_results : option Z)
    (page_token : option string) (srv : unit) : option GmailClient.Page * unit :=
  (Some (GmailClient.mkPage
           (Some (match max_results with
                  | Some r => take (Z.to_nat r) mailbox
                  | None => mailbox
                  end))
           None), srv).

(** A mailbox of five messages, listed in pages of two: the page
    tokens are the offsets '2' and '4'.  A page keeps to a [maxResults]
    of one. *)
Definition inbox : list string := ["m1"; "m2"; "m3"; "m4"; "m5"].

Definition paged (q : option string) (max_results : option Z)
    (page_token : option string) (srv : unit) : option GmailClient.Page * unit :=
  let start :=
    if decide (page_token = Some "2") then 2
    else if decide (page_token = Some "4") then 4
    else 0 in
  let size :=
    match max_results with
    | Some r => if (r <=? 1)%Z then 1 else 2
    | None => 2
    end in
  (Some (GmailClient.mkPage
           (Some (take size (drop start inbox)))
           (if decide (start = 0) then Some "2"
            else if decide (start = 2) then Some "4"
            else None)), srv).

End SampleConfig.

(** ** The engine *)

Section Engine.

(** [str.lower()]. *)
Variable str_lower : string -> string.

(** [int(s)] on a string: [None] is [ValueError]. *)
Variable py_int : string -> option Z.

(** The wall clock: [utcnow k] is what the [k]-th call of
    [datetime.utcnow()] returns, in microseconds. *)
Variable utcnow : nat -> Z.

(** The Gmail client: its answer to a call, given the calls it has
    already received. *)
Variable gmail_client : list GmailCall -> GmailCall -> bool.

Definition datetime_utcnow : M Z :=
  fun s => (Return (utcnow (clock_reads s)), set_clock_reads (S (clock_reads s)) s).

Definition call_gmail (c : GmailCall) : M bool :=
  fun s => (Return (gmail_client (gmail_calls s) c),
            set_gmail_calls (gmail_calls s ++ [c]) s).

(** [self.db.commit()]: the tables of the state are the committed ones. *)
Definition db_commit : M unit := ret tt.

(** *** Conditions *)

Definition _evaluate_string_condition (condition : RuleCondition.t) (value : string) : bool :=
  if decide (RuleCondition.predicate condition = "contains") then
    str_in (str_lower (RuleCondition.value condition)) (str_lower value)
  else if decide (RuleCondition.predicate condition = "does_not_contain") then
    negb (str_in (str_lower (RuleCondition.value condition)) (str_lower value))
  else if decide (RuleCondition.predicate condition = "equals") then
    bool_decide (str_lower (RuleCondition.value condition) = str_lower value)
  else if decide (RuleCondition.predicate condition = "does_not_equal") then
    negb (bool_decide (str_lower (RuleCondition.value condition) = str_lower value))
  else false.

Definition _evaluate_date_condition (condition : RuleCondition.t) (date : option datetime) : M bool :=
  match py_int (RuleCondition.value condition) with
  | None => ret false
  | Some value =>
      if (value <=? 0)%Z then ret false
      else
        let* delta :=
          (if decide (RuleCondition.unit condition = Some "months")
           then timedelta_days (value * 30)
           else timedelta_days value) in
        if decide (RuleCondition.predicate condition = "less_than") then
          let* now := datetime_utcnow in
          match datetime_sub now date with
          | Some age => ret (age <? delta)%Z
          | None => ret false
          end
        else if decide (RuleCondition.predicate condition = "greater_than") then
          let* now := datetime_utcnow in
          match datetime_sub now date with
          | Some age => ret (delta <? age)%Z
          | None => ret false
          end
        else ret false
  end.

Definition _evaluate_condition (condition : RuleCondition.t) (email : Email.t) : M bool :=
  if decide (RuleCondition.field condition = "from") then
    ret (_evaluate_string_condition condition (Email.from_address email))
  else if decide (RuleCondition.field condition = "subject") then
    ret (_evaluate_string_condition condition (or_empty (Email.subject email)))
  else if decide (RuleCondition.field condition = "message") then
    ret (_evaluate_string_condition condition (or_empty (Email.content email)))
  else if decide (RuleCondition.field condition = "received_date") then
    _evaluate_date_condition condition (Email.received_date email)
  else ret false.

(** The loop of [_evaluate_rule] that fills [results]. *)
Fixpoint collect_results (conditions : list RuleCondition.t) (email : Email.t)
    (results : list bool) : M (list bool) :=
  match conditions with
  | [] => ret results
  | condition :: rest =>
      let* result := _evaluate_condition condition email in
      collect_results rest email (results ++ [result])
  end.

Definition _evaluate_rule (rule : Rule.t) (conditions : list RuleCondition.t)
    (email : Email.t) : M bool :=
  match conditions with
  | [] => ret false
  | _ =>
      let* results := collect_results conditions email [] in
      if decide (Rule.predicate rule = "all") then ret (py_all results)
      else ret (py_any results)
  end.

(** *** The ledger of processed emails *)

Definition _is_already_processed (gmail_id rule_identifier : string) : M (bool * string) :=
  let* processed_records :=
    gets (fun s => filter (fun r => ProcessedEmail.gmail_id r = gmail_id)
                          (db_processed_emails s)) in
  match processed_records with
  | [] => ret (false, "")
  | first :: rest =>
      match list_find (fun r => ProcessedEmail.rule_identifier r = rule_identifier)
                      processed_records with
      | Some (_, record) => ret (true, ProcessedEmail.rule_identifier record)
      | None =>
          let latest_record := py_max ProcessedEmail.processed_at first rest in
          ret (false, ProcessedEmail.rule_identifier latest_record)
      end
  end.

(** The key the table gives a new row. *)
Definition next_id (rows : list ProcessedEmail.t) : Z :=
  (1 + foldr (fun r m => Z.max (ProcessedEmail.id r) m) 0 rows)%Z.

(** [self.db.add(ProcessedEmail(gmail_id=..., rule_identifier=...))]
    followed by the flush: [processed_at] takes its default,
    [datetime.utcnow()]. *)
Definition db_add_processed_email (gmail_id rule_identifier : string) : M unit :=
  let* now := datetime_utcnow in
  modify (fun s =>
    set_processed_emails
      (db_processed_emails s ++
         [ProcessedEmail.mk (next_id (db_processed_emails s)) gmail_id rule_identifier now])
      s).

Definition _mark_as_processed (gmail_id rule_identifier : string) : M unit :=
  let* processed :=
    gets (fun s => list_find (fun r => ProcessedEmail.gmail_id r = gmail_id
                                     /\ ProcessedEmail.rule_identifier r = rule_identifier)
                             (db_processed_emails s)) in
  match processed with
  | Some (i, record) =>
      let* now := datetime_utcnow in
      modify (fun s =>
        set_processed_emails
          (<[i := with_processed_at now record]> (db_processed_emails s)) s) ;;
      db_commit
  | None =>
      db_add_processed_email gmail_id rule_identifier ;;
      db_commit
  end.

(** *** Actions *)

(** The body of the loop over [actions]; its value is what [success]
    holds afterwards. *)
Definition execute_action (action : RuleAction.t) : M bool :=
  let* email := gets message in
  let* success :=
    (if decide (RuleAction.action_type action = "mark_as_read") then
       let* success := call_gmail (mark_as_read (Email.gmail_id email)) in
       (if success then modify (fun s => set_message (with_is_read true (message s)) s)
        else ret tt) ;;
       ret success
     else if decide (RuleAction.action_type action = "mark_as_unread") then
       let* success := call_gmail (mark_as_unread (Email.gmail_id email)) in
       (if success then modify (fun s => set_message (with_is_read false (message s)) s)
        else ret tt) ;;
       ret success
     else if decide (RuleAction.action_type action = "move_message") then
       let* success :=
         call_gmail (move_message (Email.gmail_id email) (RuleAction.action_value action)) in
       (if success
        then modify (fun s =>
               set_message (with_current_label (RuleAction.action_value action) (message s)) s)
        else ret tt) ;;
       ret success
     else ret false) in
  (if success then db_commit else ret tt) ;;
  ret success.

(** [for action in actions]: the local [success] is [None] while it
    is unbound. *)
Fixpoint for_actions (actions : list RuleAction.t) (success : option bool) : M (option bool) :=
  match actions with
  | [] => ret success
  | action :: rest =>
      let* success := execute_action action in
      for_actions rest (Some success)
  end.

(** *** The pass over the rules *)

(** The queries of [process_email]:
    [query(Rule).filter(Rule.active == True).all()],
    [query(RuleCondition).filter(RuleCondition.rule_id == rule.id).all()]
    and [query(RuleAction).filter(RuleAction.rule_id == rule.id).all()]. *)
Definition active_rules (s : State) : list Rule.t :=
  filter (fun r => Rule.active r = true) (db_rules s).

Definition conditions_of (rule : Rule.t) (s : State) : list RuleCondition.t :=
  filter (fun c => RuleCondition.rule_id c = Rule.id rule) (db_rule_conditions s).

Definition actions_of (rule : Rule.t) (s : State) : list RuleAction.t :=
  filter (fun a => RuleAction.rule_id a = Rule.id rule) (db_rule_actions s).

(** The body of the loop over [rules]. *)
Definition process_rule (rule : Rule.t) (success : option bool) : M (option bool) :=
  let* email := gets message in
  let* processed := _is_already_processed (Email.gmail_id email) (Rule.identifier rule) in
  if fst processed then ret success
  else
    let* conditions := gets (conditions_of rule) in
    let* actions := gets (actions_of rule) in
    let* matched := _evaluate_rule rule conditions email in
    if matched then
      let* success := for_actions actions success in
      match success with
      | None => raise UnboundLocalError
      | Some true =>
          let* email := gets message in
          _mark_as_processed (Email.gmail_id email) (Rule.identifier rule) ;;
          ret success
      | Some false => ret success
      end
    else ret success.

Fixpoint for_rules (rules : list Rule.t) (success : option bool) : M (option bool) :=
  match rules with
  | [] => ret success
  | rule :: rest =>
      let* success := process_rule rule success in
      for_rules rest success
  end.

Definition process_email : M unit :=
  let* rules := gets active_rules in
  for_rules rules None ;;
  ret tt.

(** ** Vocabulary of the properties *)

(** The rows of the ledger for one (message, rule identifier) pair. *)
Definition is_pair (gmail_id rule_identifier : string) (r : ProcessedEmail.t) : Prop :=
  ProcessedEmail.gmail_id r = gmail_id /\ ProcessedEmail.rule_identifier r = rule_identifier.

#[global] Instance is_pair_dec gmail_id rule_identifier r :
  Decision (is_pair gmail_id rule_identifier r).
Proof. unfold is_pair. apply _. Defined.

Definition records_for (gmail_id rule_identifier : string)
    (rows : list ProcessedEmail.t) : list ProcessedEmail.t :=
  filter (is_pair gmail_id rule_identifier) rows.

(** The uniqueness constraint [uix_email_rule] of the table. *)
Definition at_most_one_per_pair (rows : list ProcessedEmail.t) : Prop :=
  forall gmail_id rule_identifier,
    length (records_for gmail_id rule_identifier rows) <= 1.

(** evaluate(C1), ..., evaluate(Cn): each condition in turn, none
    left out. *)
Fixpoint evaluate_each (conditions : list RuleCondition.t) (email : Email.t) : M (list bool) :=
  match conditions with
  | [] => ret []
  | condition :: rest =>
      let* b := _evaluate_condition condition email in
      let* bs := evaluate_each rest email in
      ret (b :: bs)
  end.

(** The per-action success flags of a list of actions. *)
Fixpoint action_flags (actions : list RuleAction.t) : M (list bool) :=
  match actions with
  | [] => ret []
  | action :: rest =>
      let* b := execute_action action in
      let* bs := action_flags rest in
      ret (b :: bs)
  end.

(** The call an action makes to the Gmail client, if it makes one. *)
Definition gmail_call_of (gmail_id : string) (action : RuleAction.t) : option GmailCall :=
  if decide (RuleAction.action_type action = "mark_as_read") then
    Some (mark_as_read gmail_id)
  else if decide (RuleAction.action_type action = "mark_as_unread") then
    Some (mark_as_unread gmail_id)
  else if decide (RuleAction.action_type action = "move_message") then
    Some (move_message gmail_id (RuleAction.action_value action))
  else None.

(** What a successful call changes on the message object. *)
Definition apply_call (c : GmailCall) (e : Email.t) : Email.t :=
  match c with
  | mark_as_read _ => with_is_read true e
  | mark_as_unread _ => with_is_read false e
  | move_message _ destination => with_current_label destination e
  end.

(** A sequence of [_mark_as_processed] calls. *)
Fixpoint mark_each (pairs : list (string * string)) : M unit :=
  match pairs with
  | [] => ret tt
  | (gmail_id, rule_identifier) :: rest =>
      _mark_as_processed gmail_id rule_identifier ;;
      mark_each rest
  end.

(** What one [_mark_as_processed] leaves: an upsert.  If the pair has
    a row, the first such row gets the current time; if it has none, a
    row is appended.  The clock is read once. *)
Definition marked (gmail_id rule_identifier : string) (s : State) : State :=
  let now := utcnow (clock_reads s) in
  let rows := db_processed_emails s in
  set_processed_emails
    (match list_find (is_pair gmail_id rule_identifier) rows with
     | Some (i, record) => <[i := with_processed_at now record]> rows
     | None => rows ++ [ProcessedEmail.mk (next_id rows) gmail_id rule_identifier now]
     end)
    (set_clock_reads (S (clock_reads s)) s).

(** How the ledger may change: for each pair the number of rows stays,
    or goes from none to one. *)
Definition ledger_step (rows rows' : list ProcessedEmail.t) : Prop :=
  forall gmail_id rule_identifier,
    length (records_for gmail_id rule_identifier rows')
    = length (records_for gmail_id rule_identifier rows)
    \/ (records_for gmail_id rule_identifier rows = []
        /\ length (records_for gmail_id rule_identifier rows') = 1).

(** What evaluating conditions may change: the clock count only. *)
Definition eval_step (s s' : State) : Prop :=
  db_rules s' = db_rules s
  /\ db_rule_conditions s' = db_rule_conditions s
  /\ db_rule_actions s' = db_rule_actions s
  /\ db_processed_emails s' = db_processed_emails s
  /\ gmail_calls s' = gmail_calls s
  /\ message s' = message s.

(** What executing actions may change: the calls made and the
    attributes of the message other than its id. *)
Definition action_step (s s' : State) : Prop :=
  db_rules s' = db_rules s
  /\ db_rule_conditions s' = db_rule_conditions s
  /\ db_rule_actions s' = db_rule_actions s
  /\ db_processed_emails s' = db_processed_emails s
  /\ clock_reads s' = clock_reads s
  /\ Email.gmail_id (message s') = Email.gmail_id (message s).

(** What a pass may change. *)
Definition pass_step (s s' : State) : Prop :=
  db_rules s' = db_rules s
  /\ db_rule_conditions s' = db_rule_conditions s
  /\ db_rule_actions s' = db_rule_actions s
  /\ Email.gmail_id (message s') = Email.gmail_id (message s)
  /\ ledger_step (db_processed_emails s) (db_processed_emails s').

(** The rows under one rule identifier are left as they are. *)
Definition other_step (rule_identifier : string) (s s' : State) : Prop :=
  forall gmail_id,
    records_for gmail_id rule_identifier (db_processed_emails s')
    = records_for gmail_id rule_identifier (db_processed_emails s).

(** A relation between the state before and the state after that a
    computation respects, whether it returns or raises. *)
Definition keeps {A} (R : State -> State -> Prop) (m : M A) : Prop :=
  forall s, R s (snd (m s)).

(** *** Vocabulary of the further properties *)

(** [condition] read with another predicate. *)
Definition with_predicate (p : string) (c : RuleCondition.t) : RuleCondition.t :=
  RuleCondition.mk (RuleCondition.rule_id c) (RuleCondition.field c) p
                   (RuleCondition.value c) (RuleCondition.unit c).

(** The number of days of a date condition whose value reads [v]. *)
Definition days_of (c : RuleCondition.t) (v : Z) : Z :=
  if decide (RuleCondition.unit c = Some "months") then (v * 30)%Z else v.

(** The message a call is about. *)
Definition msg_id_of (c : GmailCall) : string :=
  match c with
  | mark_as_read i => i
  | mark_as_unread i => i
  | move_message i _ => i
  end.

(** The (message, rule identifier) pairs of the ledger, row by row. *)
Definition pairs_of (rows : list ProcessedEmail.t) : list (string * string) :=
  (fun r => (ProcessedEmail.gmail_id r, ProcessedEmail.rule_identifier r)) <$> rows.

(** A condition on one of the three string fields or on no known
    field: its evaluation needs neither the clock nor a date. *)
Definition string_only (c : RuleCondition.t) : Prop :=
  RuleCondition.field c <> "received_date".

(** The value of such a condition. *)
Definition string_result (c : RuleCondition.t) (email : Email.t) : bool :=
  if decide (RuleCondition.field c = "from") then
    _evaluate_string_condition c (Email.from_address email)
  else if decide (RuleCondition.field c = "subject") then
    _evaluate_string_condition c (or_empty (Email.subject email))
  else if decide (RuleCondition.field c = "message") then
    _evaluate_string_condition c (or_empty (Email.content email))
  else false.

(** What a pass may do to what the caller sees: the message keeps its
    id, sender, subject and content; calls are added to the log, each
    about this message; rows are added to the ledger, none is removed
    and none changes its pair.  The date of the message is left out: an
    [Email] that belongs to a session is reloaded after a commit, and a
    date with an offset comes back from the table without it. *)
Definition frame_step (s s' : State) : Prop :=
  Email.gmail_id (message s') = Email.gmail_id (message s)
  /\ Email.from_address (message s') = Email.from_address (message s)
  /\ Email.subject (message s') = Email.subject (message s)
  /\ Email.content (message s') = Email.content (message s)
  /\ (exists new, gmail_calls s' = gmail_calls s ++ new
                  /\ Forall (fun c => msg_id_of c = Email.gmail_id (message s)) new)
  /\ (exists new, pairs_of (db_processed_emails s')
                  = pairs_of (db_processed_emails s) ++ new
                  /\ Forall (fun p => p.1 = Email.gmail_id (message s)) new).

(** A date condition whose day count is within the range of
    [timedelta]. *)
Definition in_range (c : RuleCondition.t) : Prop :=
  forall v, py_int (RuleCondition.value c) = Some v -> (days_of c v <= 999999999)%Z.

(** *** Loading the rules ([load_rules], src/main.py) *)

(** The primary key a table gives a new row, given the keys in use. *)
Variable fresh_id : list Z -> Z.

Definition rule_row (rule_id : Z) (rule_config : Schema.Rule.t) : Rule.t :=
  Rule.mk rule_id (Schema.Rule.name rule_config) (Schema.Rule.identifier rule_config)
          (Schema.RulePredicate.name (Schema.Rule.predicate rule_config)) true.

Definition condition_row (rule_id : Z) (condition : Schema.RuleCondition.t)
    : RuleCondition.t :=
  RuleCondition.mk rule_id
    (Schema.Field.name (Schema.RuleCondition.field condition))
    (Schema.Predicate.name (Schema.RuleCondition.predicate condition))
    (Schema.RuleCondition.value condition)
    (Schema.Unit.name <$> Schema.RuleCondition.unit condition).

Definition action_row (rule_id : Z) (action : Schema.RuleAction.t) : RuleAction.t :=
  RuleAction.mk rule_id
    (Schema.ActionType.name (Schema.RuleAction.type action))
    (if decide (Schema.ActionType.name (Schema.RuleAction.type action) = "move_message")
     then Schema.RuleAction.destination action
     else None).

(** One round of the loop over [rules_config.rules]: the rule is added
    and flushed (its [created_at] reads the clock), then its conditions
    and actions are added. *)
Definition add_rule (rule_config : Schema.Rule.t) (s : State) : State :=
  let rule_id := fresh_id (Rule.id <$> db_rules s) in
  mkState (db_rules s ++ [rule_row rule_id rule_config])
          (db_rule_conditions s
             ++ (condition_row rule_id <$> Schema.Rule.conditions rule_config))
          (db_rule_actions s ++ (action_row rule_id <$> Schema.Rule.actions rule_config))
          (db_processed_emails s) (gmail_calls s) (S (clock_reads s)) (message s).

(** The loop; [None] is the [IntegrityError] of the unique constraint
    on [rules.identifier]. *)
Fixpoint add_rules (rule_configs : list Schema.Rule.t) (s : State) : option State :=
  match rule_configs with
  | [] => Some s
  | rule_config :: rest =>
      if decide (Schema.Rule.identifier rule_config ∈ Rule.identifier <$> db_rules s)
      then None
      else add_rules rest (add_rule rule_config s)
  end.

(** The three rule tables emptied, and committed. *)
Definition clear_rules (s : State) : State :=
  mkState [] [] [] (db_processed_emails s) (gmail_calls s) (clock_reads s) (message s).

(** What [load_rules] leaves in the database: the new rules, or, when
    it raises, the emptied tables. *)
Inductive load_result : Type :=
| Synced (s : State)
| IntegrityError (s : State).

Definition load_rules (rules_config : Schema.RulesConfig) (s : State) : load_result :=
  match add_rules (Schema.rules rules_config) (clear_rules s) with
  | Some s' => Synced s'
  | None => IntegrityError (clear_rules s)
  end.

(** A condition whose field and predicate are of different kinds: a
    string field with a date predicate, or the date field with a string
    predicate.  The schema admits both. *)
Definition mismatched (c : Schema.RuleCondition.t) : Prop :=
  match Schema.RuleCondition.field c, Schema.RuleCondition.predicate c with
  | Schema.Field.received_date, (Schema.Predicate.less_than | Schema.Predicate.greater_than) =>
      False
  | Schema.Field.received_date, _ => True
  | _, (Schema.Predicate.less_than | Schema.Predicate.greater_than) => True
  | _, _ => False
  end.

(** What a loaded row owes its configuration. *)
Definition row_of (s : State) (row : Rule.t) (rule_config : Schema.Rule.t) : Prop :=
  row = rule_row (Rule.id row) rule_config
  /\ conditions_of row s = (condition_row (Rule.id row) <$> Schema.Rule.conditions rule_config)
  /\ actions_of row s = (action_row (Rule.id row) <$> Schema.Rule.actions rule_config).

(** The rows of conditions and actions belong to rules of the table,
    and the keys of the rules are distinct. *)
Definition rows_linked (s : State) : Prop :=
  NoDup (Rule.id <$> db_rules s)
  /\ Forall (fun c => RuleCondition.rule_id c ∈ Rule.id <$> db_rules s)
            (db_rule_conditions s)
  /\ Forall (fun a => RuleAction.rule_id a ∈ Rule.id <$> db_rules s)
            (db_rule_actions s).

(** *** From a message of the API to an [Email] ([message_to_email],
    src/gmail/client.py) *)

(** [datetime.strptime(s, '%a, %d %b %Y %H:%M:%S %z')]: the instant of
    the offset-aware datetime it returns; [None] is [ValueError]. *)
Variable strptime : string -> option Z.

(** [None] is the [KeyError] of a message without payload or headers,
    or of [_get_message_content]. *)
Definition message_to_email (m : GmailClient.Message) : M (option Email.t) :=
  match GmailClient.payload m with
  | None => ret None
  | Some p =>
      match GmailClient.headers p with
      | None => ret None
      | Some headers =>
          let date_str := GmailClient.header_get "Date" headers in
          let* received_date :=
            (match date_str ≫= strptime with
             | Some t => ret (Aware t)
             | None => let* now := datetime_utcnow in ret (Naive now)
             end) in
          match GmailClient._get_message_content m with
          | None => ret None
          | Some content =>
              ret (Some (Email.mk (GmailClient.id m)
                           (default "" (GmailClient.header_get "From" headers))
                           (Some (default "" (GmailClient.header_get "Subject" headers)))
                           (Some content)
                           (Some received_date)
                           (bool_decide ("UNREAD" ∉ GmailClient.labels_of m))
                           (Some "INBOX")))
          end
      end
  end.

(** ** The monad *)

Lemma bind_Return {A B} (m : M A) (k : A -> M B) s a s' :
  m s = (Return a, s') -> bind m k s = k a s'.
Proof. intros H. unfold bind. rewrite H. reflexivity. Qed.

Lemma bind_Raise {A B} (m : M A) (k : A -> M B) s e s' :
  m s = (Raise e, s') -> bind m k s = (Raise e, s').
Proof. intros H. unfold bind. rewrite H. reflexivity. Qed.

Lemma bind_inv {A B} (m : M A) (k : A -> M B) s r s2 :
  bind m k s = (r, s2) ->
  (exists a s1, m s = (Return a, s1) /\ k a s1 = (r, s2))
  \/ (exists e, m s = (Raise e, s2) /\ r = Raise e).
Proof.
  unfold bind. destruct (m s) as [[a|e] s1]; intros H.
  - left. eauto.
  - right. inversion H; subst. eauto.
Qed.

Lemma keeps_ret (R : State -> State -> Prop) `{!PreOrder R} {A} (a : A) :
  keeps R (ret a).
Proof. intros s. reflexivity. Qed.

Lemma keeps_raise (R : State -> State -> Prop) `{!PreOrder R} {A} e :
  keeps R (@raise A e).
Proof. intros s. reflexivity. Qed.

Lemma keeps_gets (R : State -> State -> Prop) `{!PreOrder R} {A} (f : State -> A) :
  keeps R (gets f).
Proof. intros s. reflexivity. Qed.

Lemma keeps_bind (R : State -> State -> Prop) `{!PreOrder R} {A B}
    (m : M A) (k : A -> M B) :
  keeps R m -> (forall a, keeps R (k a)) -> keeps R (bind m k).
Proof.
  intros Hm Hk s. unfold bind. specialize (Hm s).
  destruct (m s) as [[a|e] s1]; simpl in *.
  - etransitivity; [exact Hm | apply Hk].
  - exact Hm.
Qed.

Lemma keeps_decide (R : State -> State -> Prop) {A} (P : Prop) `{!Decision P}
    (m1 m2 : M A) :
  keeps R m1 -> keeps R m2 -> keeps R (if decide P then m1 else m2).
Proof. destruct (decide P); auto. Qed.

(** ** The matcher *)

Lemma py_all_foldr results : py_all results = foldr andb true results.
Proof. induction results as [|[] rest IH]; simpl; auto. Qed.

Lemma py_any_foldr results : py_any results = foldr orb false results.
Proof. induction results as [|[] rest IH]; simpl; auto. Qed.

(** The accumulating loop computes the results of [evaluate_each],
    appended to what it started from. *)
Lemma collect_results_evaluate_each conditions email results s :
  collect_results conditions email results s =
    match evaluate_each conditions email s with
    | (Return bs, s') => (Return (results ++ bs), s')
    | (Raise e, s') => (Raise e, s')
    end.
Proof.
  revert results s. induction conditions as [|c rest IH]; intros results s; simpl.
  - unfold ret. by rewrite app_nil_r.
  - unfold bind at 1 2. destruct (_evaluate_condition c email s) as [[b|e] s1]; [|done].
    rewrite IH. unfold bind.
    destruct (evaluate_each rest email s1) as [[bs|e] s2]; [|done].
    unfold ret. by rewrite <- app_assoc.
Qed.

Lemma evaluate_each_length conditions email s bs s' :
  evaluate_each conditions email s = (Return bs, s') -> length bs = length conditions.
Proof.
  revert s bs s'. induction conditions as [|c rest IH]; intros s bs s'; simpl.
  - unfold ret. intros [= <- _]. done.
  - intros H. apply bind_inv in H as [(b & s1 & _ & H)|(e & _ & [=])].
    apply bind_inv in H as [(bs' & s2 & Hbs & H)|(e & _ & [=])].
    unfold ret in H. injection H as <- _. simpl. f_equal. eauto.
Qed.

Lemma evaluate_rule_nonempty rule conditions email s :
  conditions <> [] ->
  _evaluate_rule rule conditions email s =
    match evaluate_each conditions email s with
    | (Return bs, s') =>
        (Return (if decide (Rule.predicate rule = "all")
                 then foldr andb true bs else foldr orb false bs), s')
    | (Raise e, s') => (Raise e, s')
    end.
Proof.
  intros Hne. destruct conditions as [|c rest]; [done|].
  unfold _evaluate_rule, bind. rewrite collect_results_evaluate_each.
  destruct (evaluate_each (c :: rest) email s) as [[bs|e] s']; [|done].
  simpl. destruct (decide _); unfold ret; by rewrite ?py_all_foldr, ?py_any_foldr.
Qed.

(** C6. On a non-empty condition list the matcher evaluates every
    condition, in order, and returns the conjunction of the results
    under predicate 'all' and their disjunction under predicate 'any';
    an exception of a condition is the matcher's. *)
Theorem evaluate_rule_all_any rule conditions email s :
  conditions <> [] ->
  (Rule.predicate rule = "all" ->
     _evaluate_rule rule conditions email s =
       match evaluate_each conditions email s with
       | (Return bs, s') => (Return (foldr andb true bs), s')
       | (Raise e, s') => (Raise e, s')
       end)
  /\ (Rule.predicate rule = "any" ->
     _evaluate_rule rule conditions email s =
       match evaluate_each conditions email s with
       | (Return bs, s') => (Return (foldr orb false bs), s')
       | (Raise e, s') => (Raise e, s')
       end)
  /\ (forall bs s', evaluate_each conditions email s = (Return bs, s') ->
        length bs = length conditions).
Proof.
  intros Hne. repeat split.
  - intros Hp. rewrite evaluate_rule_nonempty by done.
    destruct (evaluate_each conditions email s) as [[bs|e] s']; [|done].
    by rewrite decide_True.
  - intros Hp. rewrite evaluate_rule_nonempty by done.
    destruct (evaluate_each conditions email s) as [[bs|e] s']; [|done].
    rewrite decide_False; [done|]. rewrite Hp. discriminate.
  - intros bs s'. apply evaluate_each_length.
Qed.

(** C10. A rule whose predicate is any string other than 'all' is
    matched as predicate 'any' is: on a non-empty condition list the
    result is the disjunction of the condition results, the same as
    for the rule with its predicate replaced by 'any'. *)
Theorem evaluate_rule_not_all_is_any rule conditions email s :
  Rule.predicate rule <> "all" ->
  conditions <> [] ->
  _evaluate_rule rule conditions email s =
    match evaluate_each conditions email s with
    | (Return bs, s') => (Return (foldr orb false bs), s')
    | (Raise e, s') => (Raise e, s')
    end
  /\ _evaluate_rule rule conditions email s =
     _evaluate_rule (Rule.mk (Rule.id rule) (Rule.name rule) (Rule.identifier rule)
                             "any" (Rule.active rule)) conditions email s.
Proof.
  intros Hp Hne. rewrite !evaluate_rule_nonempty by done.
  destruct (evaluate_each conditions email s) as [[bs|e] s']; [|done].
  rewrite decide_False by done. done.
Qed.

(** C7. A date condition whose value is not an integer, or is an
    integer that is zero or negative, evaluates to [False] whatever its
    predicate, unit and date are; it does not raise and does not read
    the clock.  The same holds through [_evaluate_condition] for a
    condition on the field 'received_date'. *)
Theorem evaluate_date_condition_guard condition s :
  (py_int (RuleCondition.value condition) = None
   \/ exists v, py_int (RuleCondition.value condition) = Some v /\ (v <= 0)%Z) ->
  (forall date, _evaluate_date_condition condition date s = (Return false, s))
  /\ (forall email, RuleCondition.field condition = "received_date" ->
        _evaluate_condition condition email s = (Return false, s)).
Proof.
  intros Hv.
  assert (Hd : forall date, _evaluate_date_condition condition date s = (Return false, s)).
  { intros date. unfold _evaluate_date_condition.
    destruct Hv as [-> | (v & -> & Hle)]; [done|].
    destruct (Z.leb_spec v 0); [done | lia]. }
  split; [exact Hd|].
  intros email Hf. unfold _evaluate_condition. rewrite Hf.
  repeat (rewrite decide_False by discriminate). rewrite decide_True by done.
  apply Hd.
Qed.

(** ** What each part of the engine leaves unchanged *)

#[global] Instance ledger_step_preorder : PreOrder ledger_step.
Proof.
  split.
  - intros rows g i. by left.
  - intros r1 r2 r3 H12 H23 g i.
    destruct (H12 g i) as [E12|[E1 E2]], (H23 g i) as [E23|[E2' E3]].
    + left. congruence.
    + right. split; [|done]. apply length_zero_iff_nil.
      rewrite <- E12, E2'. done.
    + right. split; [done|]. congruence.
    + rewrite E2' in E2. done.
Qed.

#[global] Instance eval_step_preorder : PreOrder eval_step.
Proof.
  split.
  - intros s. by repeat split.
  - intros s1 s2 s3 (?&?&?&?&?&?) (?&?&?&?&?&?). repeat split; congruence.
Qed.

#[global] Instance action_step_preorder : PreOrder action_step.
Proof.
  split.
  - intros s. by repeat split.
  - intros s1 s2 s3 (?&?&?&?&?&?) (?&?&?&?&?&?). repeat split; congruence.
Qed.

#[global] Instance pass_step_preorder : PreOrder pass_step.
Proof.
  split.
  - intros s. by repeat split.
  - intros s1 s2 s3 (?&?&?&?&?) (?&?&?&?&?).
    repeat split; try congruence. by etransitivity.
Qed.

#[global] Instance other_step_preorder i : PreOrder (other_step i).
Proof.
  split.
  - by intros s g.
  - intros s1 s2 s3 H12 H23 g. by rewrite H23, H12.
Qed.

Lemma keeps_weaken {A} (R R' : State -> State -> Prop) (m : M A) :
  (forall s s', R s s' -> R' s s') -> keeps R m -> keeps R' m.
Proof. intros HR Hm s. apply HR, Hm. Qed.

Lemma eval_step_pass s s' : eval_step s s' -> pass_step s s'.
Proof.
  intros (?&?&?&E&?&Em). repeat split; try done.
  - by rewrite Em.
  - rewrite E. reflexivity.
Qed.

Lemma action_step_pass s s' : action_step s s' -> pass_step s s'.
Proof.
  intros (?&?&?&E&?&?). repeat split; try done. rewrite E. reflexivity.
Qed.

Lemma eval_step_other i s s' : eval_step s s' -> other_step i s s'.
Proof. intros (?&?&?&E&?&?) g. by rewrite E. Qed.

Lemma action_step_other i s s' : action_step s s' -> other_step i s s'.
Proof. intros (?&?&?&E&?&?) g. by rewrite E. Qed.

Ltac keeps_step :=
  lazymatch goal with
  | |- keeps _ (bind _ _) => apply keeps_bind; [try apply _| |intros ?]
  | |- keeps _ (ret _) => apply keeps_ret; apply _
  | |- keeps _ (raise _) => apply keeps_raise; apply _
  | |- keeps _ (gets _) => apply keeps_gets; apply _
  | |- keeps _ db_commit => apply keeps_ret; apply _
  | |- keeps _ (if decide _ then _ else _) => apply keeps_decide
  | |- keeps _ (if ?b then _ else _) => destruct b
  | |- keeps _ (match ?x with _ => _ end) => destruct x
  end.

Lemma datetime_utcnow_eval : keeps eval_step datetime_utcnow.
Proof. intros s. by repeat split. Qed.

Lemma timedelta_days_eval n : keeps eval_step (timedelta_days n).
Proof. unfold timedelta_days. repeat keeps_step. Qed.

Lemma evaluate_date_condition_eval condition date :
  keeps eval_step (_evaluate_date_condition condition date).
Proof.
  unfold _evaluate_date_condition.
  repeat first [apply datetime_utcnow_eval | apply timedelta_days_eval | keeps_step].
Qed.

Lemma evaluate_condition_eval condition email :
  keeps eval_step (_evaluate_condition condition email).
Proof.
  unfold _evaluate_condition.
  repeat first [apply evaluate_date_condition_eval | keeps_step].
Qed.

Lemma collect_results_eval conditions email results :
  keeps eval_step (collect_results conditions email results).
Proof.
  revert results. induction conditions as [|c rest IH]; intros results; simpl.
  - keeps_step.
  - keeps_step; [apply evaluate_condition_eval | apply IH].
Qed.

Lemma evaluate_rule_eval rule conditions email :
  keeps eval_step (_evaluate_rule rule conditions email).
Proof.
  unfold _evaluate_rule. destruct conditions as [|c rest]; [keeps_step|].
  repeat first [apply collect_results_eval | keeps_step].
Qed.

(** ** The ledger *)

Lemma filter_insert_out {A} (P : A -> Prop) `{!forall x, Decision (P x)}
    (l : list A) i x y :
  l !! i = Some x -> ~ P x -> ~ P y -> filter P (<[i:=y]> l) = filter P l.
Proof.
  revert i. induction l as [|z l IH]; intros [|i] Hi Hx Hy; simplify_eq/=.
  - rewrite !filter_cons, !decide_False; done.
  - rewrite !filter_cons. destruct (decide (P z)); [f_equal|]; eauto.
Qed.

Lemma filter_insert_length {A} (P : A -> Prop) `{!forall x, Decision (P x)}
    (l : list A) i x y :
  l !! i = Some x -> (P x <-> P y) ->
  length (filter P (<[i:=y]> l)) = length (filter P l).
Proof.
  revert i. induction l as [|z l IH]; intros [|i] Hi Hxy; simplify_eq/=.
  - rewrite !filter_cons.
    destruct (decide (P x)), (decide (P y)); simpl; tauto.
  - rewrite !filter_cons. destruct (decide (P z)); simpl; eauto.
Qed.

Lemma records_for_nonempty gmail_id rule_identifier rows :
  records_for gmail_id rule_identifier rows <> []
  <-> exists r, r ∈ rows /\ is_pair gmail_id rule_identifier r.
Proof.
  unfold records_for. split.
  - intros Hne. destruct (filter _ rows) as [|r rest] eqn:E; [done|].
    exists r. assert (Hr : r ∈ filter (is_pair gmail_id rule_identifier) rows)
      by (rewrite E; left).
    apply list_elem_of_filter in Hr as [Hp Hin]. by split.
  - intros (r & Hr & Hp) E.
    by apply (filter_nil_not_elem_of _ _ r E Hp).
Qed.

Lemma list_find_records_for gmail_id rule_identifier rows :
  list_find (is_pair gmail_id rule_identifier) rows = None
  <-> records_for gmail_id rule_identifier rows = [].
Proof.
  rewrite list_find_None, Forall_forall. split.
  - intros H. destruct (records_for gmail_id rule_identifier rows) as [|r rest] eqn:E;
      [done|].
    assert (Hne : records_for gmail_id rule_identifier rows <> []) by (by rewrite E).
    apply records_for_nonempty in Hne as (x & Hx & Hp). by destruct (H x Hx).
  - intros E x Hx Hp. by apply (filter_nil_not_elem_of _ _ x E Hp).
Qed.

Lemma max_from_spec {A} (key : A -> Z) (best : A) (l : list A) :
  (max_from key best l = best \/ max_from key best l ∈ l)
  /\ (key best <= key (max_from key best l))%Z
  /\ (forall x, x ∈ l -> (key x <= key (max_from key best l))%Z).
Proof.
  revert best. induction l as [|y l IH]; intros best; simpl.
  - split; [by left|]. split; [lia|]. intros x Hx. inversion Hx.
  - destruct (IH (if (key best <? key y)%Z then y else best)) as (Hin & Hb & Hall).
    destruct (Z.ltb_spec (key best) (key y)).
    + split; [right; destruct Hin as [->|?]; [left | by right]|].
      split; [lia|]. intros x [->|Hx]%elem_of_cons; [lia | auto].
    + split; [destruct Hin as [->|?]; [by left | right; by right]|].
      split; [lia|]. intros x [->|Hx]%elem_of_cons; [lia | auto].
Qed.

Lemma is_already_processed_run gmail_id rule_identifier s :
  _is_already_processed gmail_id rule_identifier s =
    (Return
       (match filter (fun r => ProcessedEmail.gmail_id r = gmail_id)
                     (db_processed_emails s) with
        | [] => (false, "")
        | first :: rest =>
            match list_find (fun r => ProcessedEmail.rule_identifier r = rule_identifier)
                            (first :: rest) with
            | Some (_, record) => (true, ProcessedEmail.rule_identifier record)
            | None =>
                (false, ProcessedEmail.rule_identifier
                          (py_max ProcessedEmail.processed_at first rest))
            end
        end), s).
Proof.
  unfold _is_already_processed, bind, gets.
  destruct (filter _ (db_processed_emails s)) as [|first rest]; [done|].
  destruct (list_find _ (first :: rest)) as [[j record]|]; done.
Qed.

(** The query answers [True] exactly when the pair has a row; it
    returns and leaves the state as it is. *)
Lemma is_already_processed_spec gmail_id rule_identifier s :
  exists prev,
    _is_already_processed gmail_id rule_identifier s =
      (Return (bool_decide
                 (records_for gmail_id rule_identifier (db_processed_emails s) <> []),
               prev), s).
Proof.
  rewrite is_already_processed_run.
  set (rows := db_processed_emails s).
  destruct (filter _ rows) as [|first rest] eqn:E.
  - exists "". rewrite bool_decide_eq_false_2; [done|].
    intros (r & Hr & Hg & Hi)%records_for_nonempty.
    by apply (filter_nil_not_elem_of _ _ r E Hg).
  - destruct (list_find _ (first :: rest)) as [[j record]|] eqn:F; eexists.
    + rewrite bool_decide_eq_true_2; [done|].
      apply list_find_Some in F as (Hj & Hi & _).
      apply list_elem_of_lookup_2 in Hj. rewrite <- E in Hj.
      apply list_elem_of_filter in Hj as [Hg Hin].
      apply records_for_nonempty. exists record. by repeat split.
    + rewrite bool_decide_eq_false_2; [done|].
      intros (r & Hr & Hg & Hi)%records_for_nonempty.
      apply list_find_None in F. rewrite Forall_forall in F.
      apply (F r); [|done]. rewrite <- E. by apply list_elem_of_filter.
Qed.

Lemma is_already_processed_state gmail_id rule_identifier s :
  snd (_is_already_processed gmail_id rule_identifier s) = s.
Proof. by rewrite is_already_processed_run. Qed.

Lemma mark_as_processed_run gmail_id rule_identifier s :
  _mark_as_processed gmail_id rule_identifier s
  = (Return tt, marked gmail_id rule_identifier s).
Proof.
  unfold _mark_as_processed, marked, bind, gets.
  change (fun r => ProcessedEmail.gmail_id r = gmail_id
                   /\ ProcessedEmail.rule_identifier r = rule_identifier)
    with (is_pair gmail_id rule_identifier).
  destruct (list_find (is_pair gmail_id rule_identifier) (db_processed_emails s))
    as [[i record]|] eqn:F; simpl.
  - reflexivity.
  - reflexivity.
Qed.


Lemma marked_new gmail_id rule_identifier s :
  records_for gmail_id rule_identifier (db_processed_emails s) = [] ->
  db_processed_emails (marked gmail_id rule_identifier s)
  = db_processed_emails s
      ++ [ProcessedEmail.mk (next_id (db_processed_emails s)) gmail_id rule_identifier
                            (utcnow (clock_reads s))].
Proof.
  intros E. apply list_find_records_for in E. unfold marked. simpl. by rewrite E.
Qed.

Lemma marked_existing gmail_id rule_identifier s :
  records_for gmail_id rule_identifier (db_processed_emails s) <> [] ->
  exists j record,
    db_processed_emails s !! j = Some record
    /\ is_pair gmail_id rule_identifier record
    /\ (forall k y, db_processed_emails s !! k = Some y -> k < j ->
          ~ is_pair gmail_id rule_identifier y)
    /\ db_processed_emails (marked gmail_id rule_identifier s)
       = <[j := with_processed_at (utcnow (clock_reads s)) record]>
           (db_processed_emails s).
Proof.
  intros Hne. unfold marked. simpl.
  destruct (list_find (is_pair gmail_id rule_identifier) (db_processed_emails s))
    as [[j record]|] eqn:F.
  - apply list_find_Some in F as (Hj & Hp & Hfirst). exists j, record. eauto.
  - by apply list_find_records_for in F.
Qed.

(** A mark under one pair leaves the rows of every other pair. *)
Lemma marked_other_pair gmail_id rule_identifier g i s :
  ~ (g = gmail_id /\ i = rule_identifier) ->
  records_for g i (db_processed_emails (marked gmail_id rule_identifier s))
  = records_for g i (db_processed_emails s).
Proof.
  intros Hne.
  destruct (decide (records_for gmail_id rule_identifier (db_processed_emails s) = []))
    as [E|E].
  - rewrite marked_new by done. unfold records_for. rewrite filter_app.
    rewrite filter_cons, decide_False, filter_nil, app_nil_r; [done|].
    intros [Hg Hi]; simpl in *. apply Hne. by split.
  - destruct (marked_existing _ _ _ E) as (j & record & Hj & [Hg Hi] & Hfirst & ->).
    unfold records_for. eapply filter_insert_out; [exact Hj|..];
      intros [Hg2 Hi2]; simpl in *; apply Hne; split; congruence.
Qed.

Lemma marked_same_pair gmail_id rule_identifier s :
  length (records_for gmail_id rule_identifier
            (db_processed_emails (marked gmail_id rule_identifier s)))
  = Nat.max 1 (length (records_for gmail_id rule_identifier (db_processed_emails s))).
Proof.
  destruct (decide (records_for gmail_id rule_identifier (db_processed_emails s) = []))
    as [E|E].
  - rewrite marked_new by done. unfold records_for in *. rewrite filter_app, E.
    rewrite filter_cons, decide_True; [done|]. by split.
  - destruct (marked_existing _ _ _ E) as (j & record & Hj & Hp & Hfirst & ->).
    unfold records_for in *.
    erewrite filter_insert_length; [|exact Hj|by unfold is_pair].
    destruct (filter _ (db_processed_emails s)); [done|simpl; lia].
Qed.

Lemma marked_ledger_step gmail_id rule_identifier s :
  ledger_step (db_processed_emails s)
              (db_processed_emails (marked gmail_id rule_identifier s)).
Proof.
  intros g i. destruct (decide (g = gmail_id /\ i = rule_identifier)) as [[-> ->]|Hne].
  - rewrite marked_same_pair.
    destruct (records_for gmail_id rule_identifier (db_processed_emails s)) as [|r l];
      [by right | left; simpl; lia].
  - left. by rewrite marked_other_pair.
Qed.

Lemma mark_as_processed_pass gmail_id rule_identifier :
  keeps pass_step (_mark_as_processed gmail_id rule_identifier).
Proof.
  intros s. rewrite mark_as_processed_run. simpl.
  repeat split; try done. apply marked_ledger_step.
Qed.

Lemma mark_as_processed_other gmail_id rule_identifier i :
  i <> rule_identifier ->
  keeps (other_step i) (_mark_as_processed gmail_id rule_identifier).
Proof.
  intros Hne s g. rewrite mark_as_processed_run. simpl.
  apply marked_other_pair. intros [_ Hi]. by apply Hne.
Qed.

Lemma ledger_step_at_most_one rows rows' :
  ledger_step rows rows' -> at_most_one_per_pair rows -> at_most_one_per_pair rows'.
Proof.
  intros Hstep Hone g i. specialize (Hone g i).
  destruct (Hstep g i) as [->|[_ ->]]; lia.
Qed.

Lemma mark_each_ledger_step pairs s :
  ledger_step (db_processed_emails s) (db_processed_emails (snd (mark_each pairs s))).
Proof.
  revert s. induction pairs as [|[g i] rest IH]; intros s; simpl.
  - reflexivity.
  - rewrite (bind_Return _ _ _ _ _ (mark_as_processed_run g i s)).
    etransitivity; [apply marked_ledger_step | apply IH].
Qed.

(** C3. The ledger holds at most one row per (message, rule
    identifier) pair through any sequence of [_mark_as_processed]
    calls.  One call always returns; on a pair that has a row it
    replaces the first such row by the same row with [processed_at] set
    to the current time (no row is added), and on a pair that has none
    it appends one row for the pair, stamped with the current time. *)
Theorem mark_as_processed_upsert pairs s :
  at_most_one_per_pair (db_processed_emails s) ->
  at_most_one_per_pair (db_processed_emails (snd (mark_each pairs s)))
  /\ forall gmail_id rule_identifier,
       let rows := db_processed_emails s in
       let now := utcnow (clock_reads s) in
       exists s',
         _mark_as_processed gmail_id rule_identifier s = (Return tt, s')
         /\ (records_for gmail_id rule_identifier rows <> [] ->
               exists j record,
                 rows !! j = Some record
                 /\ is_pair gmail_id rule_identifier record
                 /\ db_processed_emails s' = <[j := with_processed_at now record]> rows
                 /\ length (db_processed_emails s') = length rows)
         /\ (records_for gmail_id rule_identifier rows = [] ->
               db_processed_emails s'
               = rows ++ [ProcessedEmail.mk (next_id rows) gmail_id rule_identifier now])
         /\ length (records_for gmail_id rule_identifier (db_processed_emails s')) = 1.
Proof.
  intros Hone. split.
  - eapply ledger_step_at_most_one; [apply mark_each_ledger_step | done].
  - intros g i rows now. exists (marked g i s).
    split; [apply mark_as_processed_run|]. split; [|split].
    + intros Hne. destruct (marked_existing _ _ _ Hne) as (j & record & Hj & Hp & Hfirst & E).
      exists j, record. repeat split; try done; try apply Hp.
      rewrite E. apply length_insert.
    + apply marked_new.
    + rewrite marked_same_pair. specialize (Hone g i). lia.
Qed.


(** ** The action loop *)

(** One action: if it makes a call, the call is logged and its answer
    is the value of [success]; the message changes only on [True]. *)
Lemma execute_action_run action s :
  execute_action action s =
    match gmail_call_of (Email.gmail_id (message s)) action with
    | None => (Return false, s)
    | Some c =>
        let s1 := set_gmail_calls (gmail_calls s ++ [c]) s in
        if gmail_client (gmail_calls s) c
        then (Return true, set_message (apply_call c (message s)) s1)
        else (Return false, s1)
    end.
Proof.
  unfold execute_action, gmail_call_of.
  repeat (destruct (decide _); [
    unfold bind, gets, call_gmail, modify, db_commit, ret; simpl;
    by destruct (gmail_client _ _)|]).
  reflexivity.
Qed.

Lemma execute_action_step action : keeps action_step (execute_action action).
Proof.
  intros s. rewrite execute_action_run.
  destruct (gmail_call_of _ action) as [c|]; simpl; [|reflexivity].
  destruct (gmail_client _ c); simpl; repeat split; try done.
  by destruct c.
Qed.

(** The loop never raises; [success] ends as the flag of the last
    action, or as it was when there is no action; every action that
    makes a call has made it, in the order of the list. *)
Lemma for_actions_run actions success s :
  exists flags s',
    action_flags actions s = (Return flags, s')
    /\ for_actions actions success s
       = (Return (match last flags with Some b => Some b | None => success end), s')
    /\ length flags = length actions
    /\ gmail_calls s'
       = gmail_calls s ++ omap (gmail_call_of (Email.gmail_id (message s))) actions
    /\ action_step s s'.
Proof.
  revert success s. induction actions as [|a rest IH]; intros success s; simpl.
  - exists [], s. rewrite app_nil_r. repeat split; done.
  - pose proof (execute_action_step a s) as Ha.
    destruct (execute_action a s) as [[b|e] s1] eqn:E; simpl in Ha.
    2:{ rewrite execute_action_run in E.
        destruct (gmail_call_of _ a) as [c|]; [|done].
        simpl in E. by destruct (gmail_client _ c). }
    destruct (IH (Some b) s1) as (flags & s' & Hf & Hl & Hlen & Hc & Hs).
    exists (b :: flags), s'.
    rewrite (bind_Return _ _ _ _ _ E), (bind_Return _ _ _ _ _ E).
    rewrite (bind_Return _ _ _ _ _ Hf), Hl, last_cons. unfold ret.
    split; [done|]. split; [by destruct (last flags)|]. split; [simpl; by f_equal|].
    split; [|by etransitivity].
    rewrite Hc. destruct Ha as (_&_&_&_&_&->).
    rewrite execute_action_run in E.
    destruct (gmail_call_of _ a) as [c|]; simpl in *.
    + destruct (gmail_client _ c); injection E as <- <-; simpl;
        by rewrite <- app_assoc.
    + by injection E as <- <-.
Qed.

Lemma for_actions_step actions success : keeps action_step (for_actions actions success).
Proof.
  intros s. destruct (for_actions_run actions success s) as (flags & s' & _ & -> & _ & _ & H).
  exact H.
Qed.


(** ** One rule of the pass *)

(** A rule whose pair has a row is skipped: nothing is evaluated,
    called or written, and [success] keeps its value. *)
Lemma process_rule_skip rule success s :
  records_for (Email.gmail_id (message s)) (Rule.identifier rule)
              (db_processed_emails s) <> [] ->
  process_rule rule success s = (Return success, s).
Proof.
  intros Hne. unfold process_rule, bind, gets.
  destruct (is_already_processed_spec (Email.gmail_id (message s))
              (Rule.identifier rule) s) as [prev ->].
  simpl. by rewrite bool_decide_eq_true_2.
Qed.

(** A rule whose pair has no row is evaluated; its actions run when it
    matches, and the mark follows the last value of [success]. *)
Lemma process_rule_run rule success s :
  records_for (Email.gmail_id (message s)) (Rule.identifier rule)
              (db_processed_emails s) = [] ->
  process_rule rule success s =
    match _evaluate_rule rule (conditions_of rule s) (message s) s with
    | (Raise e, s1) => (Raise e, s1)
    | (Return false, s1) => (Return success, s1)
    | (Return true, s1) =>
        match for_actions (actions_of rule s) success s1 with
        | (Raise e, s2) => (Raise e, s2)
        | (Return None, s2) => (Raise UnboundLocalError, s2)
        | (Return (Some false), s2) => (Return (Some false), s2)
        | (Return (Some true), s2) =>
            (Return (Some true),
             marked (Email.gmail_id (message s2)) (Rule.identifier rule) s2)
        end
    end.
Proof.
  intros E. unfold process_rule, bind, gets.
  destruct (is_already_processed_spec (Email.gmail_id (message s))
              (Rule.identifier rule) s) as [prev ->].
  simpl. rewrite bool_decide_eq_false_2 by (intros H; by apply H).
  fold (conditions_of rule s). fold (actions_of rule s).
  destruct (_evaluate_rule rule (conditions_of rule s) (message s) s)
    as [[[]|e] s1]; try done.
  destruct (for_actions (actions_of rule s) success s1) as [[[[]|]|e] s2]; try done.
  by rewrite mark_as_processed_run.
Qed.

(** C5. A rule with no conditions never matches: for every rule
    (hence for predicate 'all' and for predicate 'any'), every message
    and every state, [_evaluate_rule] on the empty condition list
    returns [False], reads no clock and changes nothing.  In a pass, the
    turn of a rule that has no condition row therefore leaves the state
    and [success] as they are: no action runs and nothing is written. *)
Theorem evaluate_rule_no_conditions rule email s :
  _evaluate_rule rule [] email s = (Return false, s)
  /\ forall success,
       conditions_of rule s = [] ->
       process_rule rule success s = (Return success, s).
Proof.
  split; [reflexivity|]. intros success Hnone.
  destruct (decide (records_for (Email.gmail_id (message s)) (Rule.identifier rule)
                      (db_processed_emails s) = [])) as [E|E].
  - rewrite (process_rule_run _ _ _ E), Hnone. reflexivity.
  - by apply process_rule_skip.
Qed.

Lemma process_rule_pass rule success : keeps pass_step (process_rule rule success).
Proof.
  unfold process_rule.
  repeat first
    [ apply mark_as_processed_pass
    | apply (keeps_weaken _ _ _ action_step_pass), for_actions_step
    | apply (keeps_weaken _ _ _ eval_step_pass), evaluate_rule_eval
    | intros s; rewrite is_already_processed_state; reflexivity
    | keeps_step ].
Qed.

Lemma process_rule_other rule success i :
  i <> Rule.identifier rule ->
  keeps (other_step i) (process_rule rule success).
Proof.
  intros Hne. unfold process_rule.
  repeat first
    [ by apply mark_as_processed_other
    | apply (keeps_weaken _ _ _ (action_step_other i)), for_actions_step
    | apply (keeps_weaken _ _ _ (eval_step_other i)), evaluate_rule_eval
    | intros s; rewrite is_already_processed_state; reflexivity
    | keeps_step ].
Qed.

Lemma for_rules_pass rules success : keeps pass_step (for_rules rules success).
Proof.
  revert success. induction rules as [|r rest IH]; intros success; simpl.
  - keeps_step.
  - keeps_step; [apply process_rule_pass | apply IH].
Qed.

Lemma for_rules_other rules success i :
  i ∉ Rule.identifier <$> rules ->
  keeps (other_step i) (for_rules rules success).
Proof.
  revert success. induction rules as [|r rest IH]; intros success Hni; simpl.
  - keeps_step.
  - rewrite fmap_cons in Hni. apply not_elem_of_cons in Hni as [Hne Hni].
    keeps_step; [by apply process_rule_other | by apply IH].
Qed.

Lemma for_rules_app rules1 rules2 success s :
  for_rules (rules1 ++ rules2) success s
  = bind (for_rules rules1 success) (for_rules rules2) s.
Proof.
  revert success s. induction rules1 as [|r rest IH]; intros success s; simpl.
  - reflexivity.
  - unfold bind. destruct (process_rule r success s) as [[sv|e] s1]; [|done].
    by rewrite IH.
Qed.

Lemma process_email_run s :
  process_email s = bind (for_rules (active_rules s) None) (fun _ => ret tt) s.
Proof. reflexivity. Qed.

Lemma process_email_pass : keeps pass_step process_email.
Proof.
  unfold process_email. keeps_step; [keeps_step|].
  keeps_step; [apply for_rules_pass | keeps_step].
Qed.


(** ** The pass *)

Lemma process_email_state s :
  snd (process_email s) = snd (for_rules (active_rules s) None s).
Proof.
  rewrite process_email_run. unfold bind.
  by destruct (for_rules (active_rules s) None s) as [[sv|e] s'].
Qed.

(** The pass that has gone through [before] goes on with [rule]. *)
Lemma for_rules_reach before rule after s success s1 :
  for_rules before None s = (Return success, s1) ->
  for_rules (before ++ rule :: after) None s
  = bind (process_rule rule success) (for_rules after) s1.
Proof. intros H. rewrite for_rules_app. by rewrite (bind_Return _ _ _ _ _ H). Qed.

Lemma not_processed_no_record gmail_id rule_identifier s prev :
  _is_already_processed gmail_id rule_identifier s = (Return (false, prev), s) ->
  records_for gmail_id rule_identifier (db_processed_emails s) = [].
Proof.
  destruct (is_already_processed_spec gmail_id rule_identifier s) as [p ->].
  intros [= H _]. apply bool_decide_eq_false in H.
  destruct (records_for _ _ _); [done|]. by destruct H.
Qed.

Lemma active_rules_identifiers s before rule after :
  NoDup (Rule.identifier <$> db_rules s) ->
  active_rules s = before ++ rule :: after ->
  Rule.identifier rule ∉ Rule.identifier <$> after.
Proof.
  intros Hnd E.
  assert (Hnd' : NoDup (Rule.identifier <$> active_rules s)).
  { eapply sublist_NoDup; [exact Hnd|]. apply fmap_sublist, sublist_filter. }
  rewrite E, fmap_app, fmap_cons in Hnd'.
  apply NoDup_app in Hnd' as (_ & _ & Hnd'). by apply NoDup_cons in Hnd' as [? _].
Qed.

Lemma for_actions_app actions1 actions2 success s :
  for_actions (actions1 ++ actions2) success s
  = bind (for_actions actions1 success) (for_actions actions2) s.
Proof.
  revert success s. induction actions1 as [|a rest IH]; intros success s; simpl.
  - reflexivity.
  - unfold bind. destruct (execute_action a s) as [[b|e] s1]; [|done].
    by rewrite IH.
Qed.

(** An action returns; its flag is the client's answer to its call,
    and [False] when it makes none. *)
Lemma execute_action_returns action s :
  exists s',
    execute_action action s
    = (Return (match gmail_call_of (Email.gmail_id (message s)) action with
               | Some c => gmail_client (gmail_calls s) c
               | None => false
               end), s').
Proof.
  rewrite execute_action_run. destruct (gmail_call_of _ action) as [c|]; simpl; [|eauto].
  destruct (gmail_client _ c); eauto.
Qed.

(** C2. In a pass that reaches a rule which is not already processed,
    which matches and whose action list is not empty (the rule table
    holding each identifier once), the ledger at the end of the pass has
    a row for the (message, rule identifier) pair exactly when the flag
    of the last action of the list is [True], that is when the Gmail
    client answered [True] to its call, whatever the flags of the
    earlier actions are; the pair had no row when the rule was
    reached. *)
Theorem processed_iff_last_action_succeeded
    s before rule after success s1 prev s2 :
  NoDup (Rule.identifier <$> db_rules s) ->
  active_rules s = before ++ rule :: after ->
  for_rules before None s = (Return success, s1) ->
  _is_already_processed (Email.gmail_id (message s1)) (Rule.identifier rule) s1
    = (Return (false, prev), s1) ->
  _evaluate_rule rule (conditions_of rule s1) (message s1) s1 = (Return true, s2) ->
  actions_of rule s1 <> [] ->
  exists earlier_actions last_action earlier_flags sb last_flag s3,
    actions_of rule s1 = earlier_actions ++ [last_action]
    /\ action_flags earlier_actions s2 = (Return earlier_flags, sb)
    /\ execute_action last_action sb = (Return last_flag, s3)
    /\ last_flag = match gmail_call_of (Email.gmail_id (message s)) last_action with
                   | Some c => gmail_client (gmail_calls sb) c
                   | None => false
                   end
    /\ (records_for (Email.gmail_id (message s)) (Rule.identifier rule)
          (db_processed_emails (snd (process_email s))) <> []
        <-> last_flag = true).
Proof.
  intros Hnd Hact Hpre Hnot Hmatch Hne.
  apply not_processed_no_record in Hnot.
  destruct (last (actions_of rule s1)) as [a|] eqn:Hlast;
    [|by apply last_None in Hlast].
  apply last_Some in Hlast as [earlier Hsplit].
  destruct (for_actions_run earlier success s2)
    as (flags & sb & Hflags & Hfor & _ & _ & Hstepb).
  destruct (execute_action_returns a sb) as [s3 Hexec].
  pose proof (execute_action_step a sb) as Hstep3. rewrite Hexec in Hstep3.
  simpl in Hstep3.
  pose proof (for_rules_pass before None s) as Hp1. rewrite Hpre in Hp1.
  destruct Hp1 as (_&_&_&Hg1&_). simpl in Hg1.
  pose proof (evaluate_rule_eval rule (conditions_of rule s1) (message s1) s1) as He.
  rewrite Hmatch in He. destruct He as (_&_&_&El2&_&Em2). simpl in El2, Em2.
  destruct Hstepb as (_&_&_&Elb&_&Egb). destruct Hstep3 as (_&_&_&El3&_&Eg3).
  rewrite Egb, Em2, Hg1 in Hexec.
  set (b := match gmail_call_of (Email.gmail_id (message s)) a with
            | Some c => gmail_client (gmail_calls sb) c
            | None => false
            end) in *.
  exists earlier, a, flags, sb, b, s3.
  do 4 (split; [done|]).
  assert (Hloop : for_actions (actions_of rule s1) success s2 = (Return (Some b), s3)).
  { rewrite Hsplit, for_actions_app, (bind_Return _ _ _ _ _ Hfor). simpl.
    by rewrite (bind_Return _ _ _ _ _ Hexec). }
  rewrite process_email_state, Hact, (for_rules_reach _ _ _ _ _ _ Hpre).
  pose proof (process_rule_run rule success s1 Hnot) as Hrun.
  rewrite Hmatch, Hloop in Hrun.
  pose proof (active_rules_identifiers s before rule after Hnd Hact) as Hother.
  rewrite <- Hg1.
  destruct b.
  - rewrite (bind_Return _ _ _ _ _ Hrun).
    rewrite (for_rules_other after (Some true) _ Hother _ (Email.gmail_id (message s1))).
    split; [done|]. intros _ E.
    pose proof (marked_same_pair (Email.gmail_id (message s3)) (Rule.identifier rule) s3)
      as Hm.
    rewrite <- Em2, <- Egb, <- Eg3 in E. rewrite E in Hm. simpl in Hm. lia.
  - rewrite (bind_Return _ _ _ _ _ Hrun).
    rewrite (for_rules_other after (Some false) _ Hother _ (Email.gmail_id (message s1))).
    rewrite El3, Elb, El2, Hnot. split; [done|discriminate].
Qed.

Lemma ledger_step_one rows rows' gmail_id rule_identifier :
  ledger_step rows rows' ->
  length (records_for gmail_id rule_identifier rows) = 1 ->
  length (records_for gmail_id rule_identifier rows') = 1.
Proof.
  intros Hstep H1. destruct (Hstep gmail_id rule_identifier) as [->|[E _]]; [done|].
  by rewrite E in H1.
Qed.

(** C1. Let a first pass over a message reach a rule that is not yet
    processed, that matches, and whose action loop ends with [success]
    true.  In any later pass over the same message that starts from the
    ledger the first pass left, a rule with the same identifier is
    skipped when the pass reaches it: the ledger query answers [True],
    and the rule's turn returns with the state as it was (no condition
    evaluated, no clock read, no call to the Gmail client, no write) and
    with [success] as it was.  After the later pass the pair has exactly
    one row. *)
Theorem second_pass_skips_processed_rule
    s before rule after success s1 prev s2 s3
    t before' rule' after' success' t1 :
  active_rules s = before ++ rule :: after ->
  for_rules before None s = (Return success, s1) ->
  _is_already_processed (Email.gmail_id (message s1)) (Rule.identifier rule) s1
    = (Return (false, prev), s1) ->
  _evaluate_rule rule (conditions_of rule s1) (message s1) s1 = (Return true, s2) ->
  for_actions (actions_of rule s1) success s2 = (Return (Some true), s3) ->
  db_processed_emails t = db_processed_emails (snd (process_email s)) ->
  Email.gmail_id (message t) = Email.gmail_id (message s) ->
  active_rules t = before' ++ rule' :: after' ->
  Rule.identifier rule' = Rule.identifier rule ->
  for_rules before' None t = (Return success', t1) ->
  (exists prev',
     _is_already_processed (Email.gmail_id (message t1)) (Rule.identifier rule') t1
     = (Return (true, prev'), t1))
  /\ process_rule rule' success' t1 = (Return success', t1)
  /\ length (records_for (Email.gmail_id (message s)) (Rule.identifier rule)
               (db_processed_emails (snd (process_email t)))) = 1.
Proof.
  intros Hact Hpre Hnot Hmatch Hfor Hledger Hgid Hact' Hid Hpre'.
  apply not_processed_no_record in Hnot.
  (* the first pass leaves one row for the pair *)
  assert (Hone : length (records_for (Email.gmail_id (message s)) (Rule.identifier rule)
                           (db_processed_emails (snd (process_email s)))) = 1).
  { pose proof (for_rules_pass before None s) as Hp1. rewrite Hpre in Hp1.
    destruct Hp1 as (_&_&_&Hg1&_). simpl in Hg1.
    pose proof (evaluate_rule_eval rule (conditions_of rule s1) (message s1) s1) as He.
    rewrite Hmatch in He. destruct He as (_&_&_&El2&_&Em2). simpl in El2, Em2.
    pose proof (for_actions_step (actions_of rule s1) success s2) as Ha.
    rewrite Hfor in Ha. destruct Ha as (_&_&_&El3&_&Eg3). simpl in El3, Eg3.
    rewrite process_email_state, Hact, (for_rules_reach _ _ _ _ _ _ Hpre).
    pose proof (process_rule_run rule success s1 Hnot) as Hrun.
    rewrite Hmatch, Hfor in Hrun. rewrite (bind_Return _ _ _ _ _ Hrun).
    pose proof (for_rules_pass after (Some true)
                  (marked (Email.gmail_id (message s3)) (Rule.identifier rule) s3))
      as (_&_&_&_&Hstep).
    eapply ledger_step_one; [exact Hstep|].
    rewrite <- Hg1, <- Em2, <- Eg3, marked_same_pair.
    rewrite El3, El2, Eg3, Em2, Hnot. done. }
  (* the later pass keeps it *)
  pose proof (for_rules_pass before' None t) as Hp. rewrite Hpre' in Hp.
  destruct Hp as (_&_&_&Hg&Hstep). simpl in Hg, Hstep.
  assert (Hrow : records_for (Email.gmail_id (message t1)) (Rule.identifier rule')
                   (db_processed_emails t1) <> []).
  { rewrite Hg, Hgid, Hid.
    rewrite Hledger in Hstep.
    pose proof (ledger_step_one _ _ _ _ Hstep Hone) as H1.
    intros E. by rewrite E in H1. }
  split; [|split].
  - destruct (is_already_processed_spec (Email.gmail_id (message t1))
                (Rule.identifier rule') t1) as [p ->].
    exists p. by rewrite bool_decide_eq_true_2.
  - by apply process_rule_skip.
  - pose proof (process_email_pass t) as (_&_&_&_&Hstep').
    rewrite Hledger in Hstep'. by eapply ledger_step_one.
Qed.

(** C4 (amended). The ledger query returns, leaves the state, and
    answers [True] exactly when the ledger has a row for the exact
    (message, rule identifier) pair.  When it answers [False] and the
    message has rows (under other identifiers), the identifier it
    returns is that of a row of the message whose [processed_at] is
    the largest.  A rule for which it answers [False] is evaluated:
    when it does not match, its turn ends there; when it matches and
    its action loop ends with [success] true, the ledger after its turn
    is the ledger before it with one row appended for the pair, so no
    earlier row is modified. *)
Theorem is_already_processed_exact_pair gmail_id rule_identifier s :
  exists was_processed prev,
    _is_already_processed gmail_id rule_identifier s = (Return (was_processed, prev), s)
    /\ (was_processed = true
        <-> exists r, r ∈ db_processed_emails s /\ is_pair gmail_id rule_identifier r)
    /\ (was_processed = false ->
        (exists r, r ∈ db_processed_emails s /\ ProcessedEmail.gmail_id r = gmail_id) ->
        exists latest,
          latest ∈ db_processed_emails s
          /\ ProcessedEmail.gmail_id latest = gmail_id
          /\ prev = ProcessedEmail.rule_identifier latest
          /\ forall r, r ∈ db_processed_emails s ->
               ProcessedEmail.gmail_id r = gmail_id ->
               (ProcessedEmail.processed_at r <= ProcessedEmail.processed_at latest)%Z)
    /\ (was_processed = false ->
        forall rule success,
          Email.gmail_id (message s) = gmail_id ->
          Rule.identifier rule = rule_identifier ->
          (forall s1,
             _evaluate_rule rule (conditions_of rule s) (message s) s = (Return false, s1) ->
             process_rule rule success s = (Return success, s1))
          /\ (forall s1 s2,
             _evaluate_rule rule (conditions_of rule s) (message s) s = (Return true, s1) ->
             for_actions (actions_of rule s) success s1 = (Return (Some true), s2) ->
             exists s3 row,
               process_rule rule success s = (Return (Some true), s3)
               /\ is_pair gmail_id rule_identifier row
               /\ db_processed_emails s3 = db_processed_emails s ++ [row])).
Proof.
  destruct (is_already_processed_spec gmail_id rule_identifier s) as [prev Hrun].
  eexists _, prev. split; [exact Hrun|]. split; [|split].
  - rewrite bool_decide_eq_true. apply records_for_nonempty.
  - intros Hfalse (r0 & Hr0 & Hg0).
    rewrite is_already_processed_run in Hrun.
    destruct (filter _ (db_processed_emails s)) as [|first rest] eqn:E.
    { by destruct (filter_nil_not_elem_of _ _ r0 E Hg0). }
    destruct (list_find _ (first :: rest)) as [[j record]|] eqn:F.
    { injection Hrun as Hb _. by rewrite Hfalse in Hb. }
    injection Hrun as _ <-. unfold py_max.
    destruct (max_from_spec ProcessedEmail.processed_at first rest) as (Hin & Hb & Hall).
    set (latest := max_from ProcessedEmail.processed_at first rest) in *.
    assert (Hl : latest ∈ first :: rest).
    { destruct Hin as [->|?]; [left | by right]. }
    rewrite <- E in Hl. apply list_elem_of_filter in Hl as [Hlg Hlin].
    exists latest. repeat split; try done.
    intros r Hr Hg.
    assert (Hr' : r ∈ first :: rest) by (rewrite <- E; by apply list_elem_of_filter).
    apply elem_of_cons in Hr' as [->|Hr']; [done | by apply Hall].
  - intros Hfalse rule success Hg Hi. subst gmail_id rule_identifier.
    apply bool_decide_eq_false in Hfalse.
    assert (Hnone : records_for (Email.gmail_id (message s)) (Rule.identifier rule)
                      (db_processed_emails s) = []).
    { destruct (records_for _ _ _); [done|]. by destruct Hfalse. }
    pose proof (process_rule_run rule success s Hnone) as Hrule. split.
    + intros s1 He. by rewrite He in Hrule.
    + intros s1 s2 He Ha. rewrite He, Ha in Hrule.
      pose proof (evaluate_rule_eval rule (conditions_of rule s) (message s) s) as Hs1.
      rewrite He in Hs1. destruct Hs1 as (_&_&_&El1&_&Em1). simpl in El1, Em1.
      pose proof (for_actions_step (actions_of rule s) success s1) as Hs2.
      rewrite Ha in Hs2. destruct Hs2 as (_&_&_&El2&_&Eg2). simpl in El2, Eg2.
      eexists _, _. split; [exact Hrule|].
      rewrite marked_new; rewrite ?El2, ?El1, ?Eg2, ?Em1; [|done].
      split; [|reflexivity]. by split.
Qed.


(** C8. In the turn of a rule that is not already processed and
    matches, an action whose call to the Gmail client is answered
    [False] sets [success] to [False] and leaves the message object as
    it was (so [is_read] and [current_label] keep their values); the
    rule's turn returns without raising, and every action after the
    failed one that makes a call has made it, in the order of the
    list. *)
Theorem failed_action_does_not_stop_rule
    rule success s prev s1 actions_before action actions_after success_b sb c :
  _is_already_processed (Email.gmail_id (message s)) (Rule.identifier rule) s
    = (Return (false, prev), s) ->
  _evaluate_rule rule (conditions_of rule s) (message s) s = (Return true, s1) ->
  actions_of rule s = actions_before ++ action :: actions_after ->
  for_actions actions_before success s1 = (Return success_b, sb) ->
  gmail_call_of (Email.gmail_id (message sb)) action = Some c ->
  gmail_client (gmail_calls sb) c = false ->
  exists sa success' s',
    execute_action action sb = (Return false, sa)
    /\ message sa = message sb
    /\ gmail_calls sa = gmail_calls sb ++ [c]
    /\ process_rule rule success s = (Return (Some success'), s')
    /\ gmail_calls s'
       = gmail_calls sa ++ omap (gmail_call_of (Email.gmail_id (message s))) actions_after.
Proof.
  intros Hnot Hmatch Hacts Hbefore Hcall Hfalse.
  apply not_processed_no_record in Hnot.
  pose proof (execute_action_run action sb) as Hexec.
  rewrite Hcall in Hexec. simpl in Hexec. rewrite Hfalse in Hexec.
  destruct (for_actions_run actions_after (Some false)
              (set_gmail_calls (gmail_calls sb ++ [c]) sb))
    as (flags & s2 & _ & Hafter & _ & Hcalls & Hstep).
  simpl in Hcalls.
  pose proof (evaluate_rule_eval rule (conditions_of rule s) (message s) s) as Hs1.
  rewrite Hmatch in Hs1. destruct Hs1 as (_&_&_&_&_&Em1). simpl in Em1.
  pose proof (for_actions_step actions_before success s1) as Hsb.
  rewrite Hbefore in Hsb. destruct Hsb as (_&_&_&_&_&Egb). simpl in Egb.
  rewrite Egb, Em1 in Hcalls.
  assert (Hloop : for_actions (actions_of rule s) success s1
                  = (Return (match last flags with
                             | Some b => Some b
                             | None => Some false
                             end), s2)).
  { rewrite Hacts, for_actions_app, (bind_Return _ _ _ _ _ Hbefore). simpl.
    by rewrite (bind_Return _ _ _ _ _ Hexec). }
  pose proof (process_rule_run rule success s Hnot) as Hrule.
  rewrite Hmatch, Hloop in Hrule.
  exists (set_gmail_calls (gmail_calls sb ++ [c]) sb).
  destruct (last flags) as [[]|]; eexists _, _;
    (split; [exact Hexec|]); (split; [done|]); (split; [done|]);
    (split; [exact Hrule|]); exact Hcalls.
Qed.

(** ** A rule without actions *)

Lemma process_rule_bound rule b s success s' :
  process_rule rule (Some b) s = (Return success, s') -> is_Some success.
Proof.
  destruct (decide (records_for (Email.gmail_id (message s)) (Rule.identifier rule)
                      (db_processed_emails s) = [])) as [E|E].
  - rewrite (process_rule_run _ _ _ E).
    destruct (_evaluate_rule _ _ _ _) as [[[]|e] s1]; try by intros [= <- _].
    destruct (for_actions_run (actions_of rule s) (Some b) s1)
      as (flags & s2 & _ & -> & _).
    destruct (last flags) as [[]|]; try destruct b; by intros [= <- _].
  - rewrite (process_rule_skip _ _ _ E). by intros [= <- _].
Qed.

Lemma for_rules_bound rules b s success s' :
  for_rules rules (Some b) s = (Return success, s') -> is_Some success.
Proof.
  revert b s. induction rules as [|r rest IH]; intros b s; simpl.
  - by intros [= <- _].
  - intros H. apply bind_inv in H as [(sv & s1 & Hr & H)|(e & _ & [=])].
    apply process_rule_bound in Hr as [b' ->]. eauto.
Qed.

(** A turn that leaves [success] unbound has evaluated at most. *)
Lemma process_rule_unbound rule s s' :
  process_rule rule None s = (Return None, s') -> eval_step s s'.
Proof.
  destruct (decide (records_for (Email.gmail_id (message s)) (Rule.identifier rule)
                      (db_processed_emails s) = [])) as [E|E].
  - rewrite (process_rule_run _ _ _ E).
    pose proof (evaluate_rule_eval rule (conditions_of rule s) (message s) s) as He.
    destruct (_evaluate_rule _ _ _ _) as [[[]|e] s1]; simpl in He;
      [|by intros [= <-]|done].
    destruct (for_actions_run (actions_of rule s) None s1)
      as (flags & s2 & _ & -> & _).
    by destruct (last flags) as [[]|].
  - rewrite (process_rule_skip _ _ _ E). intros [= <-]. reflexivity.
Qed.

Lemma for_rules_unbound rules s s' :
  for_rules rules None s = (Return None, s') -> eval_step s s'.
Proof.
  revert s. induction rules as [|r rest IH]; intros s; simpl.
  - intros [= <-]. reflexivity.
  - intros H. apply bind_inv in H as [(sv & s1 & Hr & H)|(e & _ & [=])].
    destruct sv as [b|].
    + by apply for_rules_bound in H as [? [=]].
    + etransitivity; [by apply (process_rule_unbound r) | by apply IH].
Qed.

(** C9 (amended). In a pass that reaches, with [success] still
    unbound (no action has run in the pass so far), a rule that is not
    already processed, that matches and that has no action,
    [process_email] raises [UnboundLocalError]; the ledger is then what
    it was before the pass, so no row is written for the pair, and no
    call was made to the Gmail client. *)
Theorem matching_rule_without_actions_raises
    s before rule after s1 prev s2 :
  active_rules s = before ++ rule :: after ->
  for_rules before None s = (Return None, s1) ->
  _is_already_processed (Email.gmail_id (message s1)) (Rule.identifier rule) s1
    = (Return (false, prev), s1) ->
  _evaluate_rule rule (conditions_of rule s1) (message s1) s1 = (Return true, s2) ->
  actions_of rule s1 = [] ->
  process_email s = (Raise UnboundLocalError, s2)
  /\ db_processed_emails s2 = db_processed_emails s
  /\ gmail_calls s2 = gmail_calls s
  /\ records_for (Email.gmail_id (message s)) (Rule.identifier rule)
       (db_processed_emails s2) = [].
Proof.
  intros Hact Hpre Hnot Hmatch Hnone.
  apply not_processed_no_record in Hnot.
  pose proof (for_rules_unbound _ _ _ Hpre) as (_&_&_&El1&Ec1&Em1).
  pose proof (evaluate_rule_eval rule (conditions_of rule s1) (message s1) s1) as He.
  rewrite Hmatch in He. destruct He as (_&_&_&El2&Ec2&Em2). simpl in El2, Ec2, Em2.
  pose proof (process_rule_run rule None s1 Hnot) as Hrule.
  rewrite Hmatch, Hnone in Hrule. simpl in Hrule.
  split; [|split; [congruence|split; [congruence|]]].
  - rewrite process_email_run, Hact.
    apply bind_Raise. rewrite (for_rules_reach _ _ _ _ _ _ Hpre).
    by apply bind_Raise.
  - rewrite El2, <- Em1. exact Hnot.
Qed.

(** ** Further properties: string conditions *)

Lemma prefix_iff_append (a b : string) :
  String.prefix a b = true <-> exists post, b = String.append a post.
Proof.
  revert b. induction a as [|c a IH]; intros b.
  - destruct b; simpl; (split; [intros _; eexists; reflexivity | done]).
  - destruct b as [|d b]; cbn.
    + split; [done | intros (post & [=])].
    + destruct (Ascii.ascii_dec c d) as [->|Hne].
      * rewrite IH. split; intros (post & H); exists post;
          [by rewrite H | by injection H].
      * split; [done | intros (post & [= ? _]); done].
Qed.

Lemma str_in_iff (needle haystack : string) :
  str_in needle haystack = true
  <-> exists pre post, haystack = String.append pre (String.append needle post).
Proof.
  induction haystack as [|d rest IH].
  - change (str_in needle "") with (String.prefix needle "" || false).
    rewrite orb_false_r, prefix_iff_append. split.
    + intros (post & H). by exists "", post.
    + intros (pre & post & H). destruct pre as [|? ?]; [by exists post | done].
  - change (str_in needle (String d rest))
      with (String.prefix needle (String d rest) || str_in needle rest).
    rewrite orb_true_iff, IH, prefix_iff_append. split.
    + intros [(post & H)|(pre & post & H)].
      * by exists "", post.
      * exists (String d pre), post. simpl. by rewrite H.
    + intros (pre & post & H). destruct pre as [|c pre]; simpl in H.
      * left. by exists post.
      * right. injection H as _ H. by exists pre, post.
Qed.

Lemma str_in_refl (s : string) : str_in s s = true.
Proof.
  apply str_in_iff. exists "", "".
  change (s = String.append s "").
  induction s as [|c s IH]; [done|].
  change (String c s = String c (String.append s "")). by f_equal.
Qed.

(** X1. A 'contains' condition holds exactly when the lower-cased value
    occurs in the lower-cased field as a run of consecutive characters;
    the empty value occurs in every field. *)
Theorem contains_iff_substring condition value :
  RuleCondition.predicate condition = "contains" ->
  (_evaluate_string_condition condition value = true
   <-> exists pre post,
         str_lower value
         = String.append pre (String.append (str_lower (RuleCondition.value condition)) post))
  /\ (str_lower (RuleCondition.value condition) = "" ->
      _evaluate_string_condition condition value = true).
Proof.
  intros Hp. unfold _evaluate_string_condition. rewrite Hp, decide_True by done.
  split; [apply str_in_iff|]. intros ->. apply str_in_iff. by exists "", (str_lower value).
Qed.

(** X2. On one value and one field, 'does_not_contain' is the negation
    of 'contains' and 'does_not_equal' the negation of 'equals'; 'equals'
    implies 'contains'; a predicate that is none of the four (a date
    predicate, for one) is [False]. *)
Theorem string_predicates_related condition value :
  let holds p := _evaluate_string_condition (with_predicate p condition) value in
  holds "does_not_contain" = negb (holds "contains")
  /\ holds "does_not_equal" = negb (holds "equals")
  /\ (holds "equals" = true -> holds "contains" = true)
  /\ (holds "does_not_contain" = true -> holds "does_not_equal" = true)
  /\ (forall p, p <> "contains" -> p <> "does_not_contain" -> p <> "equals" ->
        p <> "does_not_equal" -> holds p = false).
Proof.
  intros holds. unfold holds, _evaluate_string_condition. simpl.
  assert (Heq : bool_decide (str_lower (RuleCondition.value condition) = str_lower value)
                = true ->
                str_in (str_lower (RuleCondition.value condition)) (str_lower value) = true).
  { intros H%bool_decide_eq_true. rewrite H. apply str_in_refl. }
  split; [done|]. split; [done|]. split; [exact Heq|]. split.
  - destruct (bool_decide _); [|done]. rewrite Heq; done.
  - intros p H1 H2 H3 H4. by rewrite !decide_False.
Qed.

(** X3. String conditions see their operands through [str.lower()]
    only: two values with the same lower-casing, and two fields with the
    same lower-casing, give the same result.  When lower-casing a
    lower-cased string changes nothing, a condition can be replaced by
    the one with the lower-cased value, and the field by its
    lower-casing. *)
Theorem string_condition_case_insensitive condition value :
  (forall x, str_lower (str_lower x) = str_lower x) ->
  (forall condition' value',
     RuleCondition.predicate condition' = RuleCondition.predicate condition ->
     str_lower (RuleCondition.value condition') = str_lower (RuleCondition.value condition) ->
     str_lower value' = str_lower value ->
     _evaluate_string_condition condition' value'
     = _evaluate_string_condition condition value)
  /\ _evaluate_string_condition
       (RuleCondition.mk (RuleCondition.rule_id condition) (RuleCondition.field condition)
                         (RuleCondition.predicate condition)
                         (str_lower (RuleCondition.value condition))
                         (RuleCondition.unit condition))
       (str_lower value)
     = _evaluate_string_condition condition value.
Proof.
  intros Hidem.
  assert (H : forall condition' value',
     RuleCondition.predicate condition' = RuleCondition.predicate condition ->
     str_lower (RuleCondition.value condition') = str_lower (RuleCondition.value condition) ->
     str_lower value' = str_lower value ->
     _evaluate_string_condition condition' value'
     = _evaluate_string_condition condition value).
  { intros c' v' Hp Hv Hx. unfold _evaluate_string_condition. by rewrite Hp, Hv, Hx. }
  split; [exact H|]. apply H; simpl; auto.
Qed.

Lemma evaluate_condition_string_only condition email s :
  string_only condition ->
  _evaluate_condition condition email s = (Return (string_result condition email), s).
Proof.
  intros Hs. unfold _evaluate_condition, string_result.
  repeat (destruct (decide _); [done|]). done.
Qed.

(** X4. A condition on a field other than 'received_date' returns
    without raising and leaves the state as it is (the clock is not
    read); its value is that of the string comparison on 'from',
    'subject' (with [None] read as '') or 'message' (likewise), and
    [False] on any other field name. *)
Theorem string_condition_is_pure condition email s :
  string_only condition ->
  _evaluate_condition condition email s = (Return (string_result condition email), s)
  /\ (RuleCondition.field condition <> "from" ->
      RuleCondition.field condition <> "subject" ->
      RuleCondition.field condition <> "message" ->
      string_result condition email = false).
Proof.
  intros Hs. split; [by apply evaluate_condition_string_only|].
  intros H1 H2 H3. unfold string_result. by rewrite !decide_False.
Qed.

(** ** Further properties: date conditions *)

(** A date condition past its guard: the duration is built first (and
    may overflow), then the predicate decides whether the clock is
    read. *)
Lemma evaluate_date_condition_run condition date s v :
  py_int (RuleCondition.value condition) = Some v ->
  (0 < v)%Z ->
  _evaluate_date_condition condition date s =
    if (999999999 <? days_of condition v)%Z then (Raise OverflowError, s)
    else
      let delta := (days_of condition v * us_per_day)%Z in
      let age := datetime_sub (utcnow (clock_reads s)) date in
      let s' := set_clock_reads (S (clock_reads s)) s in
      if decide (RuleCondition.predicate condition = "less_than") then
        (Return (match age with Some a => (a <? delta)%Z | None => false end), s')
      else if decide (RuleCondition.predicate condition = "greater_than") then
        (Return (match age with Some a => (delta <? a)%Z | None => false end), s')
      else (Return false, s).
Proof.
  intros Hv Hpos. unfold _evaluate_date_condition, days_of. rewrite Hv.
  destruct (Z.leb_spec v 0); [lia|].
  unfold bind, timedelta_days.
  destruct (decide (RuleCondition.unit condition = Some "months")).
  - destruct (Z.leb_spec (Z.abs (v * 30)) 999999999), (Z.ltb_spec 999999999 (v * 30));
      try lia; [|done].
    unfold ret. repeat (destruct (decide _)); simpl; try done;
      by destruct (datetime_sub _ date).
  - destruct (Z.leb_spec (Z.abs v) 999999999), (Z.ltb_spec 999999999 v);
      try lia; [|done].
    unfold ret. repeat (destruct (decide _)); simpl; try done;
      by destruct (datetime_sub _ date).
Qed.


(** X6. The unit 'months' counts thirty days a month: a condition of
    [v] months and a condition of [30 * v] days with the same predicate
    behave alike on every date and state, exception included. *)
Theorem months_are_thirty_days months days date s v :
  py_int (RuleCondition.value months) = Some v ->
  py_int (RuleCondition.value days) = Some (v * 30)%Z ->
  RuleCondition.unit months = Some "months" ->
  RuleCondition.unit days <> Some "months" ->
  RuleCondition.predicate days = RuleCondition.predicate months ->
  _evaluate_date_condition days date s = _evaluate_date_condition months date s.
Proof.
  intros Hm Hd Hum Hud Hp.
  destruct (Z.leb_spec v 0) as [Hle|Hpos].
  - unfold _evaluate_date_condition. rewrite Hm, Hd.
    destruct (Z.leb_spec v 0), (Z.leb_spec (v * 30) 0); try lia. done.
  - rewrite (evaluate_date_condition_run months _ _ v),
      (evaluate_date_condition_run days _ _ (v * 30)) by (done || lia).
    assert (days_of months v = (v * 30)%Z) as ->
      by (unfold days_of; by rewrite decide_True).
    assert (days_of days (v * 30) = (v * 30)%Z) as ->
      by (unfold days_of; by rewrite decide_False).
    by rewrite Hp.
Qed.

(** X7. A date condition raises exactly when its value reads as a
    positive integer whose day count (thirty times the value under
    'months') exceeds 999999999, the range of [timedelta]; the exception
    is then [OverflowError], it is raised before the clock is read, and
    the predicate plays no part. *)
Theorem date_condition_raises_iff condition date s e s' :
  _evaluate_date_condition condition date s = (Raise e, s')
  <-> e = OverflowError /\ s' = s
      /\ exists v, py_int (RuleCondition.value condition) = Some v
                   /\ (0 < v)%Z /\ (999999999 < days_of condition v)%Z.
Proof.
  destruct (py_int (RuleCondition.value condition)) as [v|] eqn:Hv.
  2:{ unfold _evaluate_date_condition. rewrite Hv. split; [done|].
      by intros (_ & _ & v & [=] & _). }
  destruct (Z.leb_spec v 0) as [Hle|Hpos].
  { unfold _evaluate_date_condition. rewrite Hv.
    destruct (Z.leb_spec v 0); [|lia]. split; [done|].
    intros (_ & _ & v' & [= <-] & ? & _). lia. }
  rewrite (evaluate_date_condition_run _ _ _ v) by done.
  destruct (Z.ltb_spec 999999999 (days_of condition v)).
  - split.
    + intros [= <- <-]. repeat split; try done. exists v. by repeat split.
    + by intros (-> & -> & _).
  - split.
    + simpl. repeat (destruct (decide _)); done.
    + intros (_ & _ & v' & [= <-] & _ & ?). lia.
Qed.

(** X8. Thresholds are monotone: with unit and date fixed and no
    overflow, a message that is 'less_than' [v] is 'less_than' every
    larger value, and a message that is 'greater_than' [v'] is
    'greater_than' every smaller positive value. *)
Theorem date_threshold_monotone smaller larger date s v v' s1 :
  py_int (RuleCondition.value smaller) = Some v ->
  py_int (RuleCondition.value larger) = Some v' ->
  (0 < v <= v')%Z ->
  (days_of larger v' <= 999999999)%Z ->
  RuleCondition.unit larger = RuleCondition.unit smaller ->
  RuleCondition.predicate larger = RuleCondition.predicate smaller ->
  (RuleCondition.predicate smaller = "less_than" ->
   _evaluate_date_condition smaller date s = (Return true, s1) ->
   _evaluate_date_condition larger date s = (Return true, s1))
  /\ (RuleCondition.predicate smaller = "greater_than" ->
      _evaluate_date_condition larger date s = (Return true, s1) ->
      _evaluate_date_condition smaller date s = (Return true, s1)).
Proof.
  intros Hv Hv' Hle Hrange Hu Hp.
  rewrite (evaluate_date_condition_run smaller _ _ v),
    (evaluate_date_condition_run larger _ _ v') by (done || lia).
  assert (Hd : (days_of smaller v <= days_of larger v')%Z).
  { unfold days_of. rewrite Hu. destruct (decide _); lia. }
  destruct (Z.ltb_spec 999999999 (days_of smaller v)),
    (Z.ltb_spec 999999999 (days_of larger v')); try lia.
  rewrite Hp. simpl. unfold us_per_day. split; intros Hpred; rewrite Hpred; simpl.
  - destruct (datetime_sub _ date) as [a|]; [|done].
    intros [= Hlt <-]. apply Z.ltb_lt in Hlt. f_equal. f_equal. apply Z.ltb_lt. lia.
  - destruct (datetime_sub _ date) as [a|]; [|done].
    intros [= Hlt <-]. apply Z.ltb_lt in Hlt. f_equal. f_equal. apply Z.ltb_lt. lia.
Qed.

(** ** Further properties: the matcher *)

Lemma evaluate_condition_ticks condition email s :
  clock_reads s <= clock_reads (snd (_evaluate_condition condition email s))
  <= S (clock_reads s).
Proof.
  unfold _evaluate_condition.
  repeat (destruct (decide (RuleCondition.field condition = _)); [simpl; lia|]).
  destruct (decide (RuleCondition.field condition = _)); [|simpl; lia].
  destruct (py_int (RuleCondition.value condition)) as [v|] eqn:Hv.
  2:{ unfold _evaluate_date_condition. rewrite Hv. simpl. lia. }
  destruct (Z.leb_spec v 0) as [Hle|Hpos].
  { unfold _evaluate_date_condition. rewrite Hv.
    destruct (Z.leb_spec v 0); [simpl; lia | lia]. }
  rewrite (evaluate_date_condition_run _ _ _ v) by done.
  destruct (_ <? _)%Z; [simpl; lia|].
  simpl. repeat (destruct (decide _)); simpl; lia.
Qed.

Lemma evaluate_each_ticks conditions email s :
  clock_reads s <= clock_reads (snd (evaluate_each conditions email s))
  <= clock_reads s + length conditions.
Proof.
  revert s. induction conditions as [|c rest IH]; intros s; simpl; [lia|].
  pose proof (evaluate_condition_ticks c email s) as Hc.
  unfold bind. destruct (_evaluate_condition c email s) as [[b|e] s1]; simpl in *; [|lia].
  pose proof (IH s1) as Hr.
  destruct (evaluate_each rest email s1) as [[bs|e] s2]; simpl in *; lia.
Qed.

Lemma evaluate_rule_state rule conditions email s :
  snd (_evaluate_rule rule conditions email s) = snd (evaluate_each conditions email s).
Proof.
  destruct conditions as [|c rest]; [done|].
  rewrite evaluate_rule_nonempty by done.
  by destruct (evaluate_each (c :: rest) email s) as [[bs|e] s'].
Qed.

(** X9. Matching a rule changes nothing but the count of clock
    readings, and reads the clock at most once per condition. *)
Theorem evaluate_rule_reads_clock_at_most_once_per_condition rule conditions email s :
  let s' := snd (_evaluate_rule rule conditions email s) in
  eval_step s s'
  /\ clock_reads s <= clock_reads s' <= clock_reads s + length conditions.
Proof.
  split; [apply evaluate_rule_eval|].
  rewrite evaluate_rule_state. apply evaluate_each_ticks.
Qed.

(** X10. Whatever matches under predicate 'all' matches under 'any':
    if a rule with predicate 'all' matches, the same conditions under
    any other predicate string match too, in the same final state. *)
Theorem all_match_implies_any_match rule_all rule_any conditions email s s' :
  Rule.predicate rule_all = "all" ->
  Rule.predicate rule_any <> "all" ->
  _evaluate_rule rule_all conditions email s = (Return true, s') ->
  _evaluate_rule rule_any conditions email s = (Return true, s').
Proof.
  intros Hall Hany. destruct conditions as [|c rest]; [by intros [=]|].
  rewrite !evaluate_rule_nonempty by done.
  destruct (evaluate_each (c :: rest) email s) as [[bs|e] s1] eqn:E; [|done].
  apply evaluate_each_length in E. rewrite decide_True, decide_False by done.
  intros [= H <-]. f_equal. f_equal.
  destruct bs as [|b bs]; [done|]. simpl in *.
  apply andb_true_iff in H as [-> _]. done.
Qed.

Lemma evaluate_each_string_only conditions email s :
  Forall string_only conditions ->
  evaluate_each conditions email s
  = (Return ((fun c => string_result c email) <$> conditions), s).
Proof.
  induction 1 as [|c rest Hc _ IH]; simpl; [done|].
  rewrite (bind_Return _ _ _ _ _ (evaluate_condition_string_only c email s Hc)).
  by rewrite (bind_Return _ _ _ _ _ IH).
Qed.

Lemma foldr_andb_forallb {A} (f : A -> bool) (l : list A) :
  foldr andb true (f <$> l) = forallb f l.
Proof. induction l as [|x l IH]; csimpl; [done | by rewrite IH]. Qed.

Lemma foldr_orb_existsb {A} (f : A -> bool) (l : list A) :
  foldr orb false (f <$> l) = existsb f l.
Proof. induction l as [|x l IH]; csimpl; [done | by rewrite IH]. Qed.

Lemma forallb_permutation {A} (f : A -> bool) (l l' : list A) :
  l ≡ₚ l' -> forallb f l = forallb f l'.
Proof.
  induction 1 as [|x l l' _ IH|x y l|l1 l2 l3 _ IH1 _ IH2]; simpl.
  - done.
  - by rewrite IH.
  - by destruct (f x), (f y).
  - by rewrite IH1.
Qed.

Lemma existsb_permutation {A} (f : A -> bool) (l l' : list A) :
  l ≡ₚ l' -> existsb f l = existsb f l'.
Proof.
  induction 1 as [|x l l' _ IH|x y l|l1 l2 l3 _ IH1 _ IH2]; simpl.
  - done.
  - by rewrite IH.
  - by destruct (f x), (f y).
  - by rewrite IH1.
Qed.

(** X11. A rule whose conditions are all on string fields is matched
    without raising, without reading the clock and without changing the
    state; on a non-empty list its result is the 'all' or 'any' of the
    string comparisons, and it does not depend on the order of the
    conditions. *)
Theorem string_rule_is_pure_and_order_free rule conditions email s :
  Forall string_only conditions ->
  _evaluate_rule rule conditions email s
  = (Return (bool_decide (conditions <> [])
             && (if decide (Rule.predicate rule = "all")
                 then forallb (fun c => string_result c email) conditions
                 else existsb (fun c => string_result c email) conditions)), s)
  /\ forall conditions',
       conditions ≡ₚ conditions' ->
       _evaluate_rule rule conditions' email s = _evaluate_rule rule conditions email s.
Proof.
  assert (Hrun : forall l, Forall string_only l ->
    _evaluate_rule rule l email s
    = (Return (bool_decide (l <> [])
               && (if decide (Rule.predicate rule = "all")
                   then forallb (fun c => string_result c email) l
                   else existsb (fun c => string_result c email) l)), s)).
  { intros l Hl. destruct l as [|c rest]; [done|].
    rewrite evaluate_rule_nonempty, evaluate_each_string_only by done.
    rewrite foldr_andb_forallb, foldr_orb_existsb. done. }
  intros Hs. split; [by apply Hrun|].
  intros l' Hperm. rewrite !Hrun; [|done|by rewrite <- Hperm].
  rewrite (forallb_permutation _ _ _ Hperm), (existsb_permutation _ _ _ Hperm).
  do 3 f_equal. destruct conditions, l'; try done.
  - by apply Permutation_nil_cons in Hperm.
  - symmetry in Hperm. by apply Permutation_nil_cons in Hperm.
Qed.

(** ** Further properties: the ledger *)

Lemma is_already_processed_found gmail_id rule_identifier s prev :
  _is_already_processed gmail_id rule_identifier s = (Return (true, prev), s) ->
  prev = rule_identifier.
Proof.
  rewrite is_already_processed_run.
  destruct (filter _ (db_processed_emails s)) as [|first rest]; [by intros [=]|].
  destruct (list_find _ (first :: rest)) as [[j record]|] eqn:F; [|by intros [=]].
  apply list_find_Some in F as (_ & Hi & _). by intros [= <-].
Qed.

Lemma pairs_of_refresh rows j record t :
  rows !! j = Some record ->
  pairs_of (<[j := with_processed_at t record]> rows) = pairs_of rows.
Proof.
  intros Hj. unfold pairs_of. rewrite list_fmap_insert. simpl.
  apply list_insert_id. by rewrite list_lookup_fmap, Hj.
Qed.

Lemma marked_pairs gmail_id rule_identifier s :
  pairs_of (db_processed_emails (marked gmail_id rule_identifier s))
  = pairs_of (db_processed_emails s)
      ++ (if decide (records_for gmail_id rule_identifier (db_processed_emails s) = [])
          then [(gmail_id, rule_identifier)] else []).
Proof.
  destruct (decide _) as [E|E].
  - rewrite marked_new by done. unfold pairs_of. by rewrite fmap_app.
  - destruct (marked_existing _ _ _ E) as (j & record & Hj & Hp & Hfirst & ->).
    rewrite app_nil_r. by apply pairs_of_refresh.
Qed.

(** X12. A mark is seen by the query: after [_mark_as_processed] on a
    pair, [_is_already_processed] on that pair answers [True] with the
    pair's own identifier, and its answer on every other pair is what
    it was before the mark. *)
Theorem mark_then_query gmail_id rule_identifier s :
  let s' := snd (_mark_as_processed gmail_id rule_identifier s) in
  _is_already_processed gmail_id rule_identifier s' = (Return (true, rule_identifier), s')
  /\ forall g i b prev,
       ~ (g = gmail_id /\ i = rule_identifier) ->
       _is_already_processed g i s = (Return (b, prev), s) ->
       exists prev', _is_already_processed g i s' = (Return (b, prev'), s').
Proof.
  rewrite mark_as_processed_run. simpl. split.
  - destruct (is_already_processed_spec gmail_id rule_identifier
                (marked gmail_id rule_identifier s)) as [prev H].
    rewrite bool_decide_eq_true_2 in H.
    + by rewrite H, (is_already_processed_found _ _ _ _ H).
    + intros E. pose proof (marked_same_pair gmail_id rule_identifier s) as Hm.
      rewrite E in Hm. simpl in Hm. lia.
  - intros g i b prev Hne Hq.
    destruct (is_already_processed_spec g i s) as [p Hs].
    destruct (is_already_processed_spec g i (marked gmail_id rule_identifier s))
      as [p' Hs'].
    exists p'. rewrite Hs', marked_other_pair by done.
    rewrite Hs in Hq. by injection Hq as <- _.
Qed.

(** X13. A mark removes no row and changes no row's message id or
    rule identifier: the pairs of the ledger, row by row, are the former
    ones, followed by the marked pair when it had no row.  It reads the
    clock once and touches nothing else. *)
Theorem mark_keeps_rows gmail_id rule_identifier s :
  let s' := snd (_mark_as_processed gmail_id rule_identifier s) in
  pairs_of (db_processed_emails s')
  = pairs_of (db_processed_emails s)
      ++ (if decide (records_for gmail_id rule_identifier (db_processed_emails s) = [])
          then [(gmail_id, rule_identifier)] else [])
  /\ clock_reads s' = S (clock_reads s)
  /\ db_rules s' = db_rules s
  /\ db_rule_conditions s' = db_rule_conditions s
  /\ db_rule_actions s' = db_rule_actions s
  /\ gmail_calls s' = gmail_calls s
  /\ message s' = message s.
Proof.
  rewrite mark_as_processed_run. simpl. split; [apply marked_pairs | done].
Qed.

(** ** Further properties: the pass *)

#[global] Instance frame_step_preorder : PreOrder frame_step.
Proof.
  split.
  - intros s. repeat split; try done; exists []; by rewrite app_nil_r.
  - intros s1 s2 s3 (Hg&?&?&?&(c1&Ec1&Hc1)&(p1&Ep1&Hp1))
      (?&?&?&?&(c2&Ec2&Hc2)&(p2&Ep2&Hp2)).
    repeat split; try congruence.
    + exists (c1 ++ c2). rewrite Ec2, Ec1, app_assoc. split; [done|].
      apply Forall_app. split; [done|]. by rewrite <- Hg.
    + exists (p1 ++ p2). rewrite Ep2, Ep1, app_assoc. split; [done|].
      apply Forall_app. split; [done|]. by rewrite <- Hg.
Qed.









Lemma for_rules_all_processed rules success s :
  Forall (fun r => records_for (Email.gmail_id (message s)) (Rule.identifier r)
                     (db_processed_emails s) <> []) rules ->
  for_rules rules success s = (Return success, s).
Proof.
  induction 1 as [|r rest Hr _ IH]; simpl; [done|].
  by rewrite (bind_Return _ _ _ _ _ (process_rule_skip r success s Hr)).
Qed.

(** X15. When every active rule already has a row for the message (in
    particular when no rule is active), a pass returns and leaves the
    whole state as it is: nothing is evaluated, called or written. *)
Theorem process_email_all_processed s :
  Forall (fun r => records_for (Email.gmail_id (message s)) (Rule.identifier r)
                     (db_processed_emails s) <> []) (active_rules s) ->
  process_email s = (Return tt, s).
Proof.
  intros H. rewrite process_email_run.
  by rewrite (bind_Return _ _ _ _ _ (for_rules_all_processed _ None s H)).
Qed.

Lemma evaluate_condition_raise condition email s e s' :
  _evaluate_condition condition email s = (Raise e, s') ->
  e = OverflowError /\ ~ in_range condition.
Proof.
  unfold _evaluate_condition.
  repeat (destruct (decide (RuleCondition.field condition = _)); [by intros [=]|]).
  destruct (decide (RuleCondition.field condition = _)); [|by intros [=]].
  destruct (py_int (RuleCondition.value condition)) as [v|] eqn:Hv.
  2:{ unfold _evaluate_date_condition. by rewrite Hv. }
  destruct (Z.leb_spec v 0) as [Hle|Hpos].
  { unfold _evaluate_date_condition. rewrite Hv. by destruct (Z.leb_spec v 0); [|lia]. }
  rewrite (evaluate_date_condition_run _ _ _ v) by done.
  destruct (Z.ltb_spec 999999999 (days_of condition v)).
  - intros [= <- <-]. split; [done|]. intros Hr. specialize (Hr v Hv). lia.
  - simpl. repeat (destruct (decide _)); by intros [=].
Qed.

Lemma evaluate_each_raise conditions email s e s' :
  evaluate_each conditions email s = (Raise e, s') ->
  e = OverflowError /\ ~ Forall in_range conditions.
Proof.
  revert s. induction conditions as [|c rest IH]; intros s; simpl; [by intros [=]|].
  intros H. apply bind_inv in H as [(b & s1 & _ & H)|(e' & H & [= ->])].
  - apply bind_inv in H as [(bs & s2 & _ & [=])|(e' & H & [= ->])].
    apply IH in H as [-> Hn]. split; [done|]. intros Hf. apply Hn.
    by apply Forall_cons in Hf as [_ ?].
  - apply evaluate_condition_raise in H as [-> Hn]. split; [done|]. intros Hf.
    apply Hn. by apply Forall_cons in Hf as [? _].
Qed.

Lemma evaluate_rule_raise rule conditions email s e s' :
  _evaluate_rule rule conditions email s = (Raise e, s') ->
  e = OverflowError /\ ~ Forall in_range conditions.
Proof.
  destruct conditions as [|c rest]; [by intros [=]|].
  rewrite evaluate_rule_nonempty by done.
  destruct (evaluate_each (c :: rest) email s) as [[bs|e'] s1] eqn:E; [by intros [=]|].
  intros [= <- <-]. by eapply evaluate_each_raise.
Qed.

(** The turn of a rule raises [UnboundLocalError] only with [success]
    unbound and no action, and [OverflowError] only from a condition out
    of range. *)
Lemma process_rule_raise rule success s e s' :
  process_rule rule success s = (Raise e, s') ->
  (e = UnboundLocalError /\ success = None /\ actions_of rule s = [])
  \/ (e = OverflowError /\ ~ Forall in_range (conditions_of rule s)).
Proof.
  destruct (decide (records_for (Email.gmail_id (message s)) (Rule.identifier rule)
                      (db_processed_emails s) = [])) as [E|E].
  2:{ by rewrite process_rule_skip. }
  rewrite process_rule_run by done.
  destruct (_evaluate_rule _ _ _ _) as [[[]|e'] s1] eqn:He; [|by intros [=]|].
  - destruct (for_actions_run (actions_of rule s) success s1)
      as (flags & s2 & _ & -> & Hlen & _).
    destruct (last flags) as [[]|] eqn:Hlast; [by intros [=]..|].
    apply last_None in Hlast. subst flags.
    destruct success as [[]|]; [by intros [=]..|].
    intros [= <- <-]. left. repeat split; try done.
    by destruct (actions_of rule s).
  - intros [= <- <-]. right. by eapply evaluate_rule_raise.
Qed.

Lemma for_rules_raise rules success s e s' :
  for_rules rules success s = (Raise e, s') ->
  (e = UnboundLocalError /\ exists r, r ∈ rules /\ actions_of r s = [])
  \/ (e = OverflowError
      /\ exists r, r ∈ rules /\ ~ Forall in_range (conditions_of r s)).
Proof.
  revert success s. induction rules as [|r rest IH]; intros success s; simpl;
    [by intros [=]|].
  intros H. apply bind_inv in H as [(sv & s1 & Hr & H)|(e' & H & [= ->])].
  - pose proof (process_rule_pass r success s) as Hp. rewrite Hr in Hp.
    destruct Hp as (_ & Ec & Ea & _). simpl in Ec, Ea.
    apply IH in H as [(-> & r' & Hin & Hn)|(-> & r' & Hin & Hn)]; [left|right];
      (split; [done|]); exists r'; (split; [by right|]).
    + unfold actions_of in *. by rewrite <- Ea.
    + unfold conditions_of in *. by rewrite <- Ec.
  - apply process_rule_raise in H as [(-> & _ & Hn)|(-> & Hn)]; [left|right];
      (split; [done|]); exists r; (split; [by left|done]).
Qed.

(** X16. A pass raises [UnboundLocalError] only if some active rule
    has no action, and [OverflowError] only if some active rule has a
    date condition out of range; hence, when every active rule has at
    least one action and all their conditions are in range, the pass
    returns. *)
Theorem process_email_returns s :
  (Forall (fun r => actions_of r s <> []) (active_rules s) ->
   fst (process_email s) <> Raise UnboundLocalError)
  /\ (Forall (fun r => Forall in_range (conditions_of r s)) (active_rules s) ->
      fst (process_email s) <> Raise OverflowError)
  /\ (Forall (fun r => actions_of r s <> []) (active_rules s) ->
      Forall (fun r => Forall in_range (conditions_of r s)) (active_rules s) ->
      fst (process_email s) = Return tt).
Proof.
  assert (Hraise : forall e, fst (process_email s) = Raise e ->
            (e = UnboundLocalError
             /\ ~ Forall (fun r => actions_of r s <> []) (active_rules s))
            \/ (e = OverflowError
                /\ ~ Forall (fun r => Forall in_range (conditions_of r s))
                       (active_rules s))).
  { intros e. rewrite process_email_run. unfold bind.
    destruct (for_rules (active_rules s) None s) as [[sv|e'] s'] eqn:E; [done|].
    intros [= <-].
    apply for_rules_raise in E as [(-> & r & Hin & Hn)|(-> & r & Hin & Hn)];
      [left|right]; (split; [done|]); rewrite Forall_forall; intros Hf;
      first [by apply (Hf r Hin) | by apply Hn, (Hf r Hin)]. }
  split; [|split].
  - intros Hf He. by apply Hraise in He as [[_ ?]|[[=] _]].
  - intros Hf He. by apply Hraise in He as [[[=] _]|[_ ?]].
  - intros Ha Hc. destruct (fst (process_email s)) as [[]|e] eqn:E; [done|].
    by destruct (Hraise e eq_refl) as [[_ ?]|[_ ?]].
Qed.

Lemma omap_length_le {A B} (f : A -> option B) (l : list A) :
  length (omap f l) <= length l.
Proof. induction l as [|x l IH]; csimpl; [lia|]. destruct (f x); simpl; lia. Qed.

Lemma for_rules_calls rules success s :
  length (gmail_calls (snd (for_rules rules success s)))
  <= length (gmail_calls s) + sum_list_with (fun r => length (actions_of r s)) rules.
Proof.
  revert success s. induction rules as [|r rest IH]; intros success s; simpl; [lia|].
  assert (Hr : length (gmail_calls (snd (process_rule r success s)))
               <= length (gmail_calls s) + length (actions_of r s)).
  { destruct (decide (records_for (Email.gmail_id (message s)) (Rule.identifier r)
                        (db_processed_emails s) = [])) as [E|E].
    2:{ rewrite process_rule_skip by done. simpl. lia. }
    rewrite process_rule_run by done.
    pose proof (evaluate_rule_eval r (conditions_of r s) (message s) s)
      as (_&_&_&_&Ec&_).
    destruct (_evaluate_rule _ _ _ _) as [[[]|e] s1]; simpl in *;
      try (rewrite Ec; lia).
    destruct (for_actions_run (actions_of r s) success s1)
      as (flags & s2 & _ & -> & _ & Hc & _).
    assert (length (gmail_calls s2) <= length (gmail_calls s) + length (actions_of r s)).
    { rewrite Hc, length_app, Ec.
      pose proof (omap_length_le (gmail_call_of (Email.gmail_id (message s1)))
                    (actions_of r s)). lia. }
    destruct (last flags) as [[]|]; simpl; try done.
    destruct success as [[]|]; simpl; done. }
  pose proof (process_rule_pass r success s) as (_ & _ & Ea & _).
  unfold bind. destruct (process_rule r success s) as [[sv|e] s1]; simpl in *; [|lia].
  specialize (IH sv s1). unfold actions_of in *. rewrite Ea in IH. lia.
Qed.

(** X17. A pass calls the Gmail client at most once per action of an
    active rule: the number of calls it adds to the log is at most the
    number of action rows of the active rules. *)
Theorem process_email_calls_bounded s :
  length (gmail_calls (snd (process_email s)))
  <= length (gmail_calls s)
     + sum_list_with (fun r => length (actions_of r s)) (active_rules s).
Proof. rewrite process_email_state. apply for_rules_calls. Qed.

(** ** Further properties: loading the rules *)

Lemma filter_condition_rows rule_id rule_id' (l : list Schema.RuleCondition.t) :
  filter (fun c => RuleCondition.rule_id c = rule_id) (condition_row rule_id' <$> l)
  = if decide (rule_id' = rule_id) then condition_row rule_id' <$> l else [].
Proof.
  induction l as [|x l IH]; csimpl; [by destruct (decide _)|].
  rewrite filter_cons, IH. simpl. by destruct (decide (rule_id' = rule_id)).
Qed.

Lemma filter_action_rows rule_id rule_id' (l : list Schema.RuleAction.t) :
  filter (fun a => RuleAction.rule_id a = rule_id) (action_row rule_id' <$> l)
  = if decide (rule_id' = rule_id) then action_row rule_id' <$> l else [].
Proof.
  induction l as [|x l IH]; csimpl; [by destruct (decide _)|].
  rewrite filter_cons, IH. simpl. by destruct (decide (rule_id' = rule_id)).
Qed.

Lemma filter_none {A} (P : A -> Prop) `{!forall x, Decision (P x)} (l : list A) :
  Forall (fun x => ~ P x) l -> filter P l = [].
Proof.
  induction 1 as [|x l Hx _ IH]; [done|]. by rewrite filter_cons, decide_False.
Qed.

Lemma add_rule_spec rule_config s :
  (forall ids, fresh_id ids ∉ ids) ->
  rows_linked s ->
  let s1 := add_rule rule_config s in
  rows_linked s1
  /\ row_of s1 (rule_row (fresh_id (Rule.id <$> db_rules s)) rule_config) rule_config
  /\ forall row, row ∈ db_rules s ->
       conditions_of row s1 = conditions_of row s
       /\ actions_of row s1 = actions_of row s.
Proof.
  intros Hfresh (Hnd & Hc & Ha). simpl.
  set (rule_id := fresh_id (Rule.id <$> db_rules s)).
  assert (Hid : rule_id ∉ Rule.id <$> db_rules s) by apply Hfresh.
  split; [|split].
  - unfold rows_linked, add_rule. simpl. fold rule_id.
    rewrite fmap_app. simpl. split; [|split].
    + apply NoDup_app. split; [done|]. split; [|apply NoDup_singleton].
      intros x Hx [->|[]%elem_of_nil]%elem_of_cons. done.
    + apply Forall_app. split.
      * eapply Forall_impl; [exact Hc|]. intros c Hin. apply elem_of_app. by left.
      * apply Forall_fmap, Forall_forall. intros c _. simpl.
        apply elem_of_app. right. by left.
    + apply Forall_app. split.
      * eapply Forall_impl; [exact Ha|]. intros a Hin. apply elem_of_app. by left.
      * apply Forall_fmap, Forall_forall. intros a _. simpl.
        apply elem_of_app. right. by left.
  - unfold row_of, conditions_of, actions_of, add_rule. simpl. fold rule_id.
    split; [done|]. rewrite !filter_app, filter_condition_rows, filter_action_rows.
    rewrite !decide_True by done.
    rewrite (filter_none _ (db_rule_conditions s)).
    2:{ eapply Forall_impl; [exact Hc|]. intros c Hin Heq. simpl in Hin, Heq.
        by rewrite Heq in Hin. }
    rewrite (filter_none _ (db_rule_actions s)); [done|].
    eapply Forall_impl; [exact Ha|]. intros a Hin Heq. simpl in Hin, Heq.
    by rewrite Heq in Hin.
  - intros row Hrow. unfold conditions_of, actions_of, add_rule. simpl. fold rule_id.
    rewrite !filter_app, filter_condition_rows, filter_action_rows.
    assert (rule_id <> Rule.id row).
    { intros Heq. apply Hid. rewrite Heq. by apply list_elem_of_fmap_2. }
    rewrite !decide_False by done. by rewrite !app_nil_r.
Qed.

Lemma add_rules_spec rule_configs s :
  (forall ids, fresh_id ids ∉ ids) ->
  rows_linked s ->
  NoDup (Schema.Rule.identifier <$> rule_configs) ->
  (forall i, i ∈ Schema.Rule.identifier <$> rule_configs ->
     i ∉ Rule.identifier <$> db_rules s) ->
  exists s' new,
    add_rules rule_configs s = Some s'
    /\ db_rules s' = db_rules s ++ new
    /\ Forall2 (row_of s') new rule_configs
    /\ rows_linked s'
    /\ (forall row, row ∈ db_rules s ->
          conditions_of row s' = conditions_of row s
          /\ actions_of row s' = actions_of row s)
    /\ db_processed_emails s' = db_processed_emails s
    /\ gmail_calls s' = gmail_calls s
    /\ message s' = message s
    /\ clock_reads s' = clock_reads s + length rule_configs.
Proof.
  intros Hfresh. revert s.
  induction rule_configs as [|rc rest IH]; intros s Hl Hnd Hnew; simpl.
  - exists s, []. rewrite app_nil_r.
    do 2 (split; [done|]). split; [constructor|]. do 5 (split; [done|]). lia.
  - rewrite fmap_cons in Hnd, Hnew. apply NoDup_cons in Hnd as [Hrc Hnd].
    rewrite decide_False by (apply Hnew; by left).
    destruct (add_rule_spec rc s Hfresh Hl) as (Hl1 & Hrow & Hold).
    destruct (IH (add_rule rc s) Hl1 Hnd) as
      (s' & new & Hrun & Hrules & Hrows & Hl' & Hold' & El & Ec & Em & Ek).
    { intros i Hi. unfold add_rule. simpl. rewrite fmap_app. simpl.
      intros [Hin|[->|[]%elem_of_nil]%elem_of_cons]%elem_of_app; [|done].
      apply (Hnew i); [by right | done]. }
    exists s', (rule_row (fresh_id (Rule.id <$> db_rules s)) rc :: new).
    split; [done|]. split.
    { rewrite Hrules. unfold add_rule. simpl. by rewrite <- app_assoc. }
    split.
    { constructor; [|done]. destruct Hrow as (Hr & Hc & Ha).
      destruct (Hold' (rule_row (fresh_id (Rule.id <$> db_rules s)) rc)) as [Hc' Ha'].
      { unfold add_rule. simpl. apply elem_of_app. right. by left. }
      split; [done|]. split; congruence. }
    split; [done|]. split.
    { intros row Hin. destruct (Hold row Hin) as [<- <-]. apply Hold'.
      unfold add_rule. simpl. apply elem_of_app. by left. }
    do 3 (split; [done|]). rewrite Ek. unfold add_rule. simpl. lia.
Qed.

(** X18. Loading a configuration whose identifiers are distinct
    replaces the rule tables by its rules, in order; what the engine's
    queries return for each loaded rule is what the file says: its
    conditions and actions, in order, with a destination on
    'move_message' actions only.  Every loaded rule is active, whatever
    the configuration's [active] says.  The ledger, the message and the
    call log are left as they are. *)
Theorem load_rules_round_trip config s :
  (forall ids, fresh_id ids ∉ ids) ->
  NoDup (Schema.Rule.identifier <$> Schema.rules config) ->
  exists s',
    load_rules config s = Synced s'
    /\ Forall2 (row_of s') (db_rules s') (Schema.rules config)
    /\ active_rules s' = db_rules s'
    /\ NoDup (Rule.identifier <$> db_rules s')
    /\ db_processed_emails s' = db_processed_emails s
    /\ gmail_calls s' = gmail_calls s
    /\ message s' = message s.
Proof.
  intros Hfresh Hnd.
  destruct (add_rules_spec (Schema.rules config) (clear_rules s) Hfresh)
    as (s' & new & Hrun & Hrules & Hrows & _ & _ & El & Ec & Em & _).
  { repeat split; simpl; [apply NoDup_nil_2 | done | done]. }
  { done. }
  { intros i _. simpl. apply not_elem_of_nil. }
  simpl in Hrules. subst new.
  exists s'. unfold load_rules. rewrite Hrun. split; [done|]. split; [done|].
  assert (Hactive : Forall (fun r => Rule.active r = true) (db_rules s')).
  { eapply Forall2_Forall_l; [exact Hrows|]. apply Forall_forall.
    intros rc _ row (-> & _). done. }
  assert (Hidents : Rule.identifier <$> db_rules s'
                    = Schema.Rule.identifier <$> Schema.rules config).
  { clear -Hrows. induction Hrows as [|row rc rows rcs (Hr & _) _ IH]; [done|].
    csimpl. rewrite IH, Hr. done. }
  split; [|by rewrite Hidents].
  unfold active_rules. clear -Hactive.
  induction Hactive as [|r l Hr _ IH]; [done|].
  by rewrite filter_cons, decide_True, IH.
Qed.

Lemma add_rules_fails rule_configs s :
  NoDup (Rule.identifier <$> db_rules s) ->
  add_rules rule_configs s = None
  <-> ~ NoDup ((Rule.identifier <$> db_rules s)
               ++ (Schema.Rule.identifier <$> rule_configs)).
Proof.
  revert s. induction rule_configs as [|rc rest IH]; intros s Hnd; simpl.
  - rewrite app_nil_r. split; [done | by intros []].
  - destruct (decide _) as [Hin|Hnin].
    + split; [|done]. intros _ Hn. apply NoDup_app in Hn as (_ & Hdis & _).
      apply (Hdis _ Hin). by left.
    + assert (Hnd1 : NoDup (Rule.identifier <$> db_rules (add_rule rc s))).
      { unfold add_rule. simpl. rewrite fmap_app. simpl.
        apply NoDup_app. split; [done|]. split; [|apply NoDup_singleton].
        intros x Hx [->|[]%elem_of_nil]%elem_of_cons. done. }
      rewrite (IH _ Hnd1). unfold add_rule. simpl.
      rewrite fmap_app, fmap_cons. simpl. by rewrite <- app_assoc.
Qed.

(** X19. [load_rules] fails exactly when two rules of the configuration
    share an identifier (the unique constraint of the table).  The rule
    tables are then empty, the ledger is kept, and a pass over any
    message returns without doing anything. *)
Theorem load_rules_fails_iff_duplicate config s :
  (load_rules config s = IntegrityError (clear_rules s)
   <-> ~ NoDup (Schema.Rule.identifier <$> Schema.rules config))
  /\ (forall s', load_rules config s = IntegrityError s' ->
        db_processed_emails s' = db_processed_emails s
        /\ process_email s' = (Return tt, s')).
Proof.
  pose proof (add_rules_fails (Schema.rules config) (clear_rules s)) as Hiff.
  simpl in Hiff. specialize (Hiff (NoDup_nil_2)). unfold load_rules. split.
  - rewrite <- Hiff. by destruct (add_rules _ _).
  - destruct (add_rules _ _); [done|]. by intros s' [= <-].
Qed.

Lemma add_rules_rows rule_configs s s' :
  add_rules rule_configs s = Some s' ->
  (Forall (fun r => exists i rc, r = rule_row i rc) (db_rules s) ->
   Forall (fun r => exists i rc, r = rule_row i rc) (db_rules s'))
  /\ (Forall (fun a => exists i x, a = action_row i x) (db_rule_actions s) ->
      Forall (fun a => exists i x, a = action_row i x) (db_rule_actions s'))
  /\ (Forall (fun c => exists i x, c = condition_row i x) (db_rule_conditions s) ->
      Forall (fun c => exists i x, c = condition_row i x) (db_rule_conditions s')).
Proof.
  revert s. induction rule_configs as [|rc rest IH]; intros s; simpl.
  - by intros [= <-].
  - destruct (decide _); [done|]. intros H. apply IH in H as (Hr & Ha & Hc).
    unfold add_rule in *. simpl in *. split; [|split]; intros H.
    + apply Hr, Forall_app. split; [done|]. repeat constructor. eauto.
    + apply Ha, Forall_app. split; [done|]. apply Forall_fmap, Forall_forall.
      intros x _. simpl. eauto.
    + apply Hc, Forall_app. split; [done|]. apply Forall_fmap, Forall_forall.
      intros x _. simpl. eauto.
Qed.

(** X20. After a load, the engine's fall-backs are out of reach: every
    rule row is active and its predicate is 'all' or 'any'; every action
    row has one of the three known types, so that executing it calls the
    Gmail client, and carries a destination only if it is a
    'move_message'; every condition row is on one of the four fields. *)
Theorem loaded_rows_are_known config s s' :
  load_rules config s = Synced s' ->
  Forall (fun r => Rule.active r = true
                   /\ (Rule.predicate r = "all" \/ Rule.predicate r = "any"))
         (db_rules s')
  /\ Forall (fun a => (forall g, is_Some (gmail_call_of g a))
                      /\ (RuleAction.action_type a = "move_message"
                          \/ RuleAction.action_value a = None))
            (db_rule_actions s')
  /\ Forall (fun c => RuleCondition.field c
                      ∈ ["from"; "subject"; "message"; "received_date"])
            (db_rule_conditions s').
Proof.
  unfold load_rules.
  destruct (add_rules (Schema.rules config) (clear_rules s)) as [s1|] eqn:E; [|done].
  intros [= <-]. apply add_rules_rows in E as (Hr & Ha & Hc).
  specialize (Hr (Forall_nil_2 _)). specialize (Ha (Forall_nil_2 _)).
  specialize (Hc (Forall_nil_2 _)).
  split; [|split].
  - eapply Forall_impl; [exact Hr|]. intros r (i & rc & ->). simpl. split; [done|].
    destruct (Schema.Rule.predicate rc); auto.
  - eapply Forall_impl; [exact Ha|]. intros a (i & x & ->). split.
    + intros g. unfold gmail_call_of, action_row. simpl.
      destruct (Schema.RuleAction.type x); simpl; eauto.
    + unfold action_row. simpl. destruct (Schema.RuleAction.type x); simpl; auto.
  - eapply Forall_impl; [exact Hc|]. intros c (i & x & ->). simpl.
    destruct (Schema.RuleCondition.field x); simpl;
      repeat (first [by left | right]).
Qed.

(** X21. The schema admits conditions whose field and predicate are
    of different kinds.  Such a condition never holds: a string field
    with a date predicate is [False]; the date field with a string
    predicate is [False] or, with a value out of range, raises. *)
Theorem mismatched_condition_never_holds condition rule_id email s :
  mismatched condition ->
  fst (_evaluate_condition (condition_row rule_id condition) email s) <> Return true
  /\ (Schema.RuleCondition.field condition <> Schema.Field.received_date ->
      _evaluate_condition (condition_row rule_id condition) email s = (Return false, s)).
Proof.
  intros Hm. unfold mismatched in Hm.
  destruct condition as [f p v u]. simpl in *.
  destruct f; simpl.
  1-3: destruct p; try done; (split; [done|]); done.
  split; [|done].
  set (c := condition_row rule_id _).
  change (_evaluate_condition c email s)
    with (_evaluate_date_condition c (Email.received_date email) s).
  destruct (py_int (RuleCondition.value c)) as [n|] eqn:Hv.
  2:{ unfold _evaluate_date_condition. by rewrite Hv. }
  destruct (Z.leb_spec n 0) as [Hle|Hpos].
  { unfold _evaluate_date_condition. rewrite Hv. by destruct (Z.leb_spec n 0); [|lia]. }
  rewrite (evaluate_date_condition_run _ _ _ n) by done.
  destruct (_ <? _)%Z; [done|]. destruct p; done.
Qed.

(** ** Further properties: converted messages *)

Lemma aware_date_condition condition t s :
  fst (_evaluate_date_condition condition (Some (Aware t)) s) <> Return true.
Proof.
  destruct (py_int (RuleCondition.value condition)) as [n|] eqn:Hv.
  2:{ unfold _evaluate_date_condition. by rewrite Hv. }
  destruct (Z.leb_spec n 0) as [Hle|Hpos].
  { unfold _evaluate_date_condition. rewrite Hv. by destruct (Z.leb_spec n 0); [|lia]. }
  rewrite (evaluate_date_condition_run _ _ _ n) by done.
  destruct (_ <? _)%Z; [done|]. simpl. repeat (destruct (decide _)); done.
Qed.

(** X22. The date of a converted message.  When the message has a
    'Date' header that [strptime] accepts, the email's [received_date]
    carries an offset, the clock is not read, and no condition on
    'received_date' ever holds for that email (the subtraction from
    [utcnow()] is a [TypeError], which is caught).  Otherwise
    [received_date] is the current time, naive, and the clock is read
    once. *)
Theorem message_to_email_date m s email s' :
  message_to_email m s = (Return (Some email), s') ->
  exists headers,
    (GmailClient.payload m ≫= GmailClient.headers) = Some headers
    /\ match GmailClient.header_get "Date" headers ≫= strptime with
       | Some t =>
           Email.received_date email = Some (Aware t)
           /\ s' = s
           /\ forall condition s0,
                RuleCondition.field condition = "received_date" ->
                fst (_evaluate_condition condition email s0) <> Return true
       | None =>
           Email.received_date email = Some (Naive (utcnow (clock_reads s)))
           /\ s' = set_clock_reads (S (clock_reads s)) s
       end.
Proof.
  unfold message_to_email.
  destruct (GmailClient.payload m) as [p|]; [|by intros [=]]. simpl.
  destruct (GmailClient.headers p) as [hs|]; [|by intros [=]].
  intros H. exists hs. split; [done|].
  destruct (GmailClient.header_get "Date" hs ≫= strptime) as [t|].
  - unfold bind, ret in H. destruct (GmailClient._get_message_content m); [|done].
    injection H as <- <-. simpl. do 2 (split; [done|]).
    intros c st Hf. unfold _evaluate_condition. rewrite Hf. simpl.
    apply aware_date_condition.
  - unfold bind, ret, datetime_utcnow in H.
    destruct (GmailClient._get_message_content m); [|done].
    by injection H as <- <-.
Qed.

(** X23. What a converted message keeps of the API message: its id;
    the value of its last 'From' header, or the empty string; a subject
    and a content that are never [None]; [is_read] exactly when the
    label 'UNREAD' is absent; and the label 'INBOX' whatever its labels
    are.  The conversion fails (a [KeyError]) exactly when the message
    has no payload, no headers, or a first text/plain part without a
    body to read. *)
Theorem message_to_email_fields m s :
  (fst (message_to_email m s) = Return None
   <-> (GmailClient.payload m ≫= GmailClient.headers) = None
       \/ GmailClient._get_message_content m = None)
  /\ forall email s',
       message_to_email m s = (Return (Some email), s') ->
       Email.gmail_id email = GmailClient.id m
       /\ (exists headers,
             (GmailClient.payload m ≫= GmailClient.headers) = Some headers
             /\ Email.from_address email
                = default "" (snd <$> last (filter (fun h => h.1 = "From") headers)))
       /\ is_Some (Email.subject email)
       /\ Email.content email = Some (default "" (GmailClient._get_message_content m))
       /\ (Email.is_read email = true <-> "UNREAD" ∉ GmailClient.labels_of m)
       /\ Email.current_label email = Some "INBOX".
Proof.
  unfold message_to_email. split.
  - destruct (GmailClient.payload m) as [p|]; simpl; [|by split; [left|]].
    destruct (GmailClient.headers p) as [hs|]; simpl; [|by split; [left|]].
    unfold bind, ret, datetime_utcnow.
    destruct (_ ≫= strptime); destruct (GmailClient._get_message_content m); simpl;
      (split; [try done; by right | try done; by intros [|]]).
  - intros email s'.
    destruct (GmailClient.payload m) as [p|]; [|by intros [=]]. simpl.
    destruct (GmailClient.headers p) as [hs|]; [|by intros [=]].
    intros H.
    assert (exists d, email = Email.mk (GmailClient.id m)
              (default "" (GmailClient.header_get "From" hs))
              (Some (default "" (GmailClient.header_get "Subject" hs)))
              (Some (default "" (GmailClient._get_message_content m))) (Some d)
              (bool_decide ("UNREAD" ∉ GmailClient.labels_of m)) (Some "INBOX")
            /\ is_Some (GmailClient._get_message_content m)) as (d & -> & Hc).
    { destruct (_ ≫= strptime); unfold bind, ret, datetime_utcnow in H;
        destruct (GmailClient._get_message_content m); try done;
        injection H as <- _; eauto. }
    simpl. split; [done|]. split; [by exists hs|]. split; [done|]. split; [done|].
    split; [apply bool_decide_eq_true | done].
Qed.

End Engine.

(** ** Further properties: the Gmail client *)

Section ClientProperties.

Variable get_answer : list GmailClient.Request -> string -> option GmailClient.Message.
Variable modify_answer :
  list GmailClient.Request -> string -> list string -> list string -> bool.
Variable labels_answer : list GmailClient.Request -> option (list (string * string)).

Let get := GmailClient.recorded_get get_answer.
Let modify := GmailClient.recorded_modify modify_answer.
Let labels := GmailClient.recorded_labels labels_answer.

(** X24. The requests of [mark_as_read].  It reads the message first;
    it answers [False] after that one request when the message cannot be
    read, and [True] after that one request when the message is already
    read.  Otherwise it sends one modification, which removes 'UNREAD'
    and adds nothing, and reads the message again.  It answers [True]
    only after a reading of the message that shows no 'UNREAD'. *)
Theorem mark_as_read_requests msg_id log :
  let run := GmailClient.mark_as_read get modify msg_id log in
  let reading := GmailClient.Get msg_id in
  let change := GmailClient.Modify msg_id [] ["UNREAD"] in
  (snd run = log ++ [reading]
   \/ snd run = log ++ [reading; change]
   \/ snd run = log ++ [reading; change; reading])
  /\ (get_answer log msg_id = None -> run = (false, log ++ [reading]))
  /\ (forall m, get_answer log msg_id = Some m ->
        "UNREAD" ∉ GmailClient.labels_of m -> run = (true, log ++ [reading]))
  /\ (fst run = true ->
      exists log0 m, snd run = log0 ++ [reading]
                     /\ get_answer log0 msg_id = Some m
                     /\ "UNREAD" ∉ GmailClient.labels_of m).
Proof.
  unfold GmailClient.mark_as_read, GmailClient.get_message, get, modify,
    GmailClient.recorded_get, GmailClient.recorded_modify. simpl.
  destruct (get_answer log msg_id) as [m|] eqn:Hm.
  2:{ split_and!; try done. by left. }
  destruct (bool_decide ("UNREAD" ∉ GmailClient.labels_of m)) eqn:Hread.
  { apply bool_decide_eq_true in Hread.
    split_and!; try done; [by left | intros _; by exists log, m]. }
  apply bool_decide_eq_false in Hread.
  destruct (modify_answer _ _ _ _).
  2:{ split_and!; try done; [|by intros m0 [= <-]].
      right. left. by rewrite <- app_assoc. }
  destruct (get_answer (_ ++ _) msg_id) as [m'|] eqn:Hm'; simpl.
  - split_and!; try done.
    + right. right. by rewrite <- !app_assoc.
    + by intros m0 [= <-].
    + intros Hok%bool_decide_eq_true. by eexists _, m'.
  - split_and!; try done; [|by intros m0 [= <-]].
    right. right. by rewrite <- !app_assoc.
Qed.

(** X25. The requests of [mark_as_unread] mirror those of
    [mark_as_read]: one reading when the message cannot be read
    ([False]) or is already unread ([True]); otherwise one modification
    that adds 'UNREAD' and removes nothing, and a second reading.
    [True] is answered only after a reading that shows 'UNREAD'. *)
Theorem mark_as_unread_requests msg_id log :
  let run := GmailClient.mark_as_unread get modify msg_id log in
  let reading := GmailClient.Get msg_id in
  let change := GmailClient.Modify msg_id ["UNREAD"] [] in
  (snd run = log ++ [reading]
   \/ snd run = log ++ [reading; change]
   \/ snd run = log ++ [reading; change; reading])
  /\ (get_answer log msg_id = None -> run = (false, log ++ [reading]))
  /\ (forall m, get_answer log msg_id = Some m ->
        "UNREAD" ∈ GmailClient.labels_of m -> run = (true, log ++ [reading]))
  /\ (fst run = true ->
      exists log0 m, snd run = log0 ++ [reading]
                     /\ get_answer log0 msg_id = Some m
                     /\ "UNREAD" ∈ GmailClient.labels_of m).
Proof.
  unfold GmailClient.mark_as_unread, GmailClient.get_message, get, modify,
    GmailClient.recorded_get, GmailClient.recorded_modify. simpl.
  destruct (get_answer log msg_id) as [m|] eqn:Hm.
  2:{ split_and!; try done. by left. }
  destruct (bool_decide ("UNREAD" ∈ GmailClient.labels_of m)) eqn:Hread.
  { apply bool_decide_eq_true in Hread.
    split_and!; try done; [by left | intros _; by exists log, m]. }
  apply bool_decide_eq_false in Hread.
  destruct (modify_answer _ _ _ _).
  2:{ split_and!; try done; [|by intros m0 [= <-]].
      right. left. by rewrite <- app_assoc. }
  destruct (get_answer (_ ++ _) msg_id) as [m'|] eqn:Hm'; simpl.
  - split_and!; try done.
    + right. right. by rewrite <- !app_assoc.
    + by intros m0 [= <-].
    + intros Hok%bool_decide_eq_true. by eexists _, m'.
  - split_and!; try done; [|by intros m0 [= <-]].
    right. right. by rewrite <- !app_assoc.
Qed.

(** A request of a short trace is one of its entries: the cases that
    are not a modification close. *)
Ltac only_modify H :=
  repeat (apply elem_of_cons in H as [H|H]; [try discriminate H|]);
  try (by apply elem_of_nil in H);
  try (injection H as -> -> ->).

Lemma get_label_id_recorded d log :
  snd (GmailClient.get_label_id labels d log) = log ++ [GmailClient.Labels]
  /\ forall lid, fst (GmailClient.get_label_id labels d log) = Some lid ->
       exists ls, labels_answer log = Some ls /\ (d, lid) ∈ ls.
Proof.
  unfold GmailClient.get_label_id, labels, GmailClient.recorded_labels.
  destruct (labels_answer log) as [ls|]; simpl; [|done].
  split; [done|]. intros lid Hlid. exists ls. split; [done|].
  destruct (list_find _ ls) as [[i [n l]]|] eqn:Hfind; [|done].
  simpl in Hlid. injection Hlid as ->.
  apply list_find_Some in Hfind as (Hi & Hn & _). simpl in Hn. subst n.
  by eapply list_elem_of_lookup_2.
Qed.

(** X26. The requests of [move_message].  It changes labels at most
    once and only on the message it was given.  A destination that starts
    with 'STARRED', 'IMPORTANT' or 'UNREAD' is added as it is and nothing
    is removed; any other destination is looked up among the labels of
    the account, its non-empty id is added and 'INBOX', 'SPAM' and 'TRASH'
    are removed.  Without a destination, or with one the account does not
    list, no change is requested.  It answers [True] only after a final
    reading of the message that shows the destination (for a custom
    label: the id that a last listing of the labels gives it). *)
Theorem move_message_requests msg_id destination log :
  let run := GmailClient.move_message get modify labels msg_id destination log in
  let reading := GmailClient.Get msg_id in
  exists trace,
    snd run = log ++ trace
    /\ length (filter (fun r => GmailClient.is_modify r = true) trace) <= 1
    /\ (forall i add remove, GmailClient.Modify i add remove ∈ trace ->
          i = msg_id
          /\ exists d, destination = Some d
             /\ if GmailClient.is_builtin d then add = [d] /\ remove = []
                else remove = ["INBOX"; "SPAM"; "TRASH"]
                     /\ exists lid ls, add = [lid] /\ lid <> ""
                        /\ labels_answer (log ++ [reading]) = Some ls
                        /\ (d, lid) ∈ ls)
    /\ (fst run = true ->
        exists d log0 m, destination = Some d
          /\ get_answer log0 msg_id = Some m
          /\ if GmailClient.is_builtin d
             then snd run = log0 ++ [reading] /\ d ∈ GmailClient.labels_of m
             else exists lid ls,
                    snd run = log0 ++ [reading; GmailClient.Labels]
                    /\ labels_answer (log0 ++ [reading]) = Some ls
                    /\ (d, lid) ∈ ls
                    /\ lid ∈ GmailClient.labels_of m).
Proof.
  intros run reading. subst run reading.
  unfold GmailClient.move_message, GmailClient.get_message, get, modify,
    GmailClient.recorded_get, GmailClient.recorded_modify. simpl.
  destruct (get_answer log msg_id) as [m|] eqn:Hm.
  2:{ eexists [_]. split_and!; try done.
      - vm_compute; lia.
      - intros i add remove Hin. apply list_elem_of_singleton in Hin. done. }
  destruct destination as [d|].
  2:{ eexists [_]. split_and!; try done.
      - vm_compute; lia.
      - intros i add remove Hin. apply list_elem_of_singleton in Hin. done. }
  destruct (GmailClient.is_builtin d) eqn:Hb.
  - destruct (modify_answer _ _ _ _).
    2:{ eexists [_; _]. split_and!; try done.
        - by rewrite <- app_assoc.
        - vm_compute; lia.
        - intros i add remove Hin. only_modify Hin.
          split; [done|]. exists d. by rewrite Hb. }
    destruct (get_answer (_ ++ _) msg_id) as [m'|] eqn:Hm'; simpl.
    + eexists [_; _; _]. split_and!.
      * by rewrite <- !app_assoc.
      * vm_compute; lia.
      * intros i add remove Hin. only_modify Hin.
        split; [done|]. exists d. by rewrite Hb.
      * intros Hok%bool_decide_eq_true. eexists d, _, m'.
        rewrite Hb. done.
    + eexists [_; _; _]. split_and!; try done.
      * by rewrite <- !app_assoc.
      * vm_compute; lia.
      * intros i add remove Hin. only_modify Hin.
        split; [done|]. exists d. by rewrite Hb.
  - destruct (get_label_id_recorded d (log ++ [GmailClient.Get msg_id]))
      as [Hlog Hlid].
    destruct (GmailClient.get_label_id labels d _) as [label_id log1].
    simpl in Hlog, Hlid. subst log1.
    destruct label_id as [lid|]; simpl.
    2:{ eexists [_; _]. split_and!; try done.
        - by rewrite <- app_assoc.
        - vm_compute; lia.
        - intros i add remove Hin. only_modify Hin. }
    destruct (Hlid lid eq_refl) as (ls & Hls & Hin_ls).
    case_bool_decide as Hne; simpl.
    { eexists [_; _]. split_and!; try done.
      - by rewrite <- app_assoc.
      - vm_compute; lia.
      - intros i add remove Hin. only_modify Hin. }
    destruct (modify_answer _ _ _ _).
    2:{ eexists [_; _; _]. split_and!; try done.
        - by rewrite <- !app_assoc.
        - vm_compute; lia.
        - intros i add remove Hin. only_modify Hin.
          split; [done|]. exists d. rewrite Hb. split; [done|]. split; [done|].
          exists lid, ls. by split_and!. }
    destruct (get_answer (_ ++ _) msg_id) as [m'|] eqn:Hm'; simpl.
    2:{ eexists [_; _; _; _]. split_and!; try done.
        - by rewrite <- !app_assoc.
        - vm_compute; lia.
        - intros i add remove Hin. only_modify Hin.
          split; [done|]. exists d. rewrite Hb. split; [done|]. split; [done|].
          exists lid, ls. by split_and!. }
    match goal with
    | |- context [GmailClient.get_label_id labels d ?l] =>
        destruct (get_label_id_recorded d l) as [Hlog' Hlid'];
        destruct (GmailClient.get_label_id labels d l) as [label_id' log2]
    end.
    simpl in Hlog', Hlid'. subst log2.
    eexists [_; _; _; _; _]. split_and!.
    + destruct label_id'; simpl; by rewrite <- !app_assoc.
    + vm_compute; lia.
    + intros i add remove Hin. only_modify Hin.
      split; [done|]. exists d. rewrite Hb. split; [done|]. split; [done|].
      exists lid, ls. by split_and!.
    + destruct label_id' as [lid'|]; simpl; [|done].
      intros Hok%bool_decide_eq_true.
      destruct (Hlid' lid' eq_refl) as (ls' & Hls' & Hin').
      eexists d, _, m'. rewrite Hb. split; [done|]. split; [done|].
      exists lid', ls'. split; [|done].
      by rewrite <- !app_assoc.
Qed.

End ClientProperties.

(** ** Further properties: listing the mailbox *)

Section ListingProperties.

Context {Service : Type}.
Variable messages_list :
  option string -> option Z -> option string -> Service
  -> option GmailClient.Page * Service.

Let list_messages := GmailClient.list_messages messages_list.
Let loop := GmailClient.list_all_messages_loop messages_list.
Let respects_max_results := GmailClient.respects_max_results messages_list.
Let pages_make_progress := GmailClient.pages_make_progress messages_list.

Lemma list_messages_listed q r t srv :
  respects_max_results -> (0 < r)%Z ->
  (Z.of_nat (length (GmailClient.listed (fst (list_messages q (Some r) t srv)))) <= r)%Z.
Proof.
  intros Hapi Hr. unfold list_messages, GmailClient.list_messages.
  destruct (messages_list q (Some r) t srv) as [[page|] srv'] eqn:Hpage; simpl.
  - by eapply Hapi.
  - lia.
Qed.

Lemma list_messages_progress q r t srv :
  pages_make_progress ->
  GmailClient.nonempty (GmailClient.next (fst (list_messages q r t srv))) = true ->
  0 < length (GmailClient.listed (fst (list_messages q r t srv))).
Proof.
  intros Hapi. unfold list_messages, GmailClient.list_messages.
  destruct (messages_list q r t srv) as [[page|] srv'] eqn:Hpage; simpl.
  - intros Htok. specialize (Hapi _ _ _ _ _ _ Hpage Htok).
    destruct (default [] (GmailClient.messages page)); [done|simpl; lia].
  - done.
Qed.

Lemma loop_bounded fuel q n fetched t srv ms :
  respects_max_results -> (0 < n)%Z ->
  (Z.of_nat (length fetched) <= n)%Z ->
  fst (loop fuel q (Some n) fetched t srv) = Some ms ->
  (Z.of_nat (length ms) <= n)%Z.
Proof.
  intros Hapi Hn. revert fetched t srv.
  induction fuel as [|fuel IH]; intros fetched t srv Hlen; [done|].
  unfold loop. simpl. fold loop.
  assert ((n =? 0)%Z = false) as Hnz by (apply Z.eqb_neq; lia).
  rewrite Hnz. simpl.
  destruct (n - Z.of_nat (length fetched) <=? 0)%Z eqn:Hrem.
  { simpl. by intros [= <-]. }
  apply Z.leb_gt in Hrem.
  pose proof (list_messages_listed q _ t srv Hapi Hrem) as Hpage.
  unfold list_messages in Hpage.
  destruct (GmailClient.list_messages messages_list q _ t srv)
    as [response srv'].
  simpl in Hpage.
  assert (Z.of_nat (length (fetched ++ GmailClient.listed response)) <= n)%Z
    as Hlen' by (rewrite length_app; lia).
  destruct (negb _ || _).
  - simpl. by intros [= <-].
  - by apply IH.
Qed.

Lemma loop_returns fuel q n fetched t srv :
  pages_make_progress -> (0 < n)%Z ->
  (n - Z.of_nat (length fetched) <= Z.of_nat fuel)%Z ->
  (Z.of_nat (length fetched) < n)%Z ->
  exists ms, fst (loop fuel q (Some n) fetched t srv) = Some ms
             /\ fetched `prefix_of` ms.
Proof.
  intros Hapi Hn. revert fetched t srv.
  induction fuel as [|fuel IH]; intros fetched t srv Hfuel Hlen; [lia|].
  unfold loop. simpl. fold loop.
  assert ((n =? 0)%Z = false) as Hnz by (apply Z.eqb_neq; lia).
  rewrite Hnz. simpl.
  destruct (n - Z.of_nat (length fetched) <=? 0)%Z eqn:Hrem.
  { apply Z.leb_le in Hrem. lia. }
  pose proof (list_messages_progress q (Some (n - Z.of_nat (length fetched))%Z)
                t srv Hapi) as Hpage.
  unfold list_messages in Hpage.
  destruct (GmailClient.list_messages messages_list q _ t srv)
    as [response srv'].
  simpl in Hpage.
  destruct (GmailClient.nonempty (GmailClient.next response)) eqn:Htok; simpl.
  2:{ eexists. split; [done|]. by apply prefix_app_r. }
  destruct (n <=? _)%Z eqn:Hfull; simpl.
  { eexists. split; [done|]. by apply prefix_app_r. }
  apply Z.leb_gt in Hfull. specialize (Hpage eq_refl).
  rewrite length_app in Hfull.
  destruct (IH (fetched ++ GmailClient.listed response)
              (GmailClient.next response) srv') as (ms & Hms & Hpre).
  - rewrite length_app. lia.
  - rewrite length_app. lia.
  - exists ms. split; [done|]. etrans; [|done]. by apply prefix_app_r.
Qed.

Lemma loop_more_fuel fuel fuel' q max_total fetched t srv ms srv' :
  loop fuel q max_total fetched t srv = (Some ms, srv') ->
  fuel <= fuel' ->
  loop fuel' q max_total fetched t srv = (Some ms, srv').
Proof.
  revert fuel' fetched t srv.
  induction fuel as [|fuel IH]; intros fuel' fetched t srv Hrun Hle; [done|].
  destruct fuel' as [|fuel']; [lia|].
  unfold loop in Hrun |- *. simpl in Hrun |- *. fold loop in Hrun |- *.
  destruct (match _ with Some r => (r <=? 0)%Z | None => false end); [done|].
  destruct (GmailClient.list_messages messages_list q _ t srv)
    as [response srv1].
  destruct (negb _ || _); [done|].
  apply IH; [done|lia].
Qed.

(** X27. With a positive [max_total], [list_all_messages] returns, and
    returns at most [max_total] messages, when the API keeps to the
    [maxResults] it is asked with (each page is asked with what is still
    missing) and every page that names a next page carries a message:
    [max_total] rounds are enough, and more rounds change nothing. *)
Theorem list_all_messages_at_most_max_total query n srv :
  respects_max_results -> pages_make_progress -> (0 < n)%Z ->
  exists ms srv',
    (forall fuel, Z.to_nat n <= fuel ->
       GmailClient.list_all_messages messages_list fuel query (Some n) srv
       = (Some ms, srv'))
    /\ (Z.of_nat (length ms) <= n)%Z.
Proof.
  intros Hapi Hpages Hn.
  destruct (loop_returns (Z.to_nat n) query n [] None srv Hpages Hn)
    as (ms & Hms & _); [simpl; lia..|].
  destruct (loop (Z.to_nat n) query (Some n) [] None srv) as [result srv'] eqn:Hrun.
  simpl in Hms. subst result.
  exists ms, srv'. split.
  - intros fuel Hfuel. by apply (loop_more_fuel (Z.to_nat n)).
  - apply (loop_bounded (Z.to_nat n) query n [] None srv ms Hapi Hn); [simpl; lia|].
    by rewrite Hrun.
Qed.

(** X28. With a positive [max_total], the loop of [list_all_messages]
    ends after at most [max_total] rounds, when every page that names a
    next page carries a message: each round that goes on has added one. *)
Theorem list_all_messages_returns query n srv :
  pages_make_progress -> (0 < n)%Z ->
  exists ms,
    fst (GmailClient.list_all_messages messages_list (Z.to_nat n) query (Some n) srv)
    = Some ms.
Proof.
  intros Hapi Hn.
  destruct (loop_returns (Z.to_nat n) query n [] None srv Hapi Hn)
    as (ms & Hms & _); [simpl; lia..|].
  by exists ms.
Qed.

Lemma loop_zero_is_unlimited fuel q fetched t srv :
  loop fuel q (Some 0%Z) fetched t srv = loop fuel q None fetched t srv.
Proof.
  revert fetched t srv. induction fuel as [|fuel IH]; intros; [done|].
  unfold loop. simpl. fold loop.
  destruct (GmailClient.list_messages messages_list q None t srv)
    as [response srv'].
  rewrite !orb_false_r. destruct (negb _); [done|]. apply IH.
Qed.

(** X29. A [max_total] that is not positive.  Zero is no limit at all:
    the listing is that of a call without [max_total].  A negative
    [max_total] gives the empty listing, and no request is made. *)
Theorem list_all_messages_non_positive_limit fuel query n srv :
  (n <= 0)%Z ->
  GmailClient.list_all_messages messages_list (S fuel) query (Some n) srv
  = if (n =? 0)%Z
    then GmailClient.list_all_messages messages_list (S fuel) query None srv
    else (Some [], srv).
Proof.
  intros Hn. destruct (n =? 0)%Z eqn:Hz.
  - apply Z.eqb_eq in Hz as ->. apply loop_zero_is_unlimited.
  - unfold GmailClient.list_all_messages. simpl. rewrite Hz. simpl.
    apply Z.eqb_neq in Hz.
    destruct (n - Z.of_nat 0 <=? 0)%Z eqn:Hrem; [done|].
    apply Z.leb_gt in Hrem. lia.
Qed.

End ListingProperties.

(** ** Further properties: the batches of [main] *)

Section Batches.

Context {A : Type}.

Lemma concat_slices (l : list A) b m :
  concat ((fun i => Main.slice l i (i + b)) <$> ((fun k => k * b) <$> seq 0 m))
  = take (m * b) l.
Proof.
  induction m as [|m IH]; [done|].
  rewrite seq_S, !fmap_app, concat_app, IH. simpl.
  rewrite app_nil_r. unfold Main.slice.
  replace (m * b + b - m * b) with b by lia.
  rewrite take_take_drop. f_equal. lia.
Qed.

Lemma rounds_cover n b : 0 < b -> n <= (n + b - 1) / b * b.
Proof.
  intros Hb.
  pose proof (Nat.div_mod_eq (n + b - 1) b) as Hdiv.
  pose proof (Nat.mod_upper_bound (n + b - 1) b) as Hmod.
  lia.
Qed.

Lemma rounds_needed n b k : 0 < b -> k < (n + b - 1) / b -> k * b < n.
Proof.
  intros Hb Hk.
  pose proof (Nat.div_mod_eq (n + b - 1) b) as Hdiv.
  assert (S k * b <= (n + b - 1) / b * b) as Hle by (apply Nat.mul_le_mono_r; lia).
  simpl in Hle. lia.
Qed.

(** X30. The batches of [main] cut the listing without loss: put end
    to end they are the listed messages, each once and in order; every
    batch holds at least one and at most fifty messages, and an empty
    listing gives no batch. *)
Theorem batches_partition (messages : list A) :
  concat (Main.batches messages) = messages
  /\ Forall (fun batch => 0 < length batch <= Main.BATCH_SIZE) (Main.batches messages)
  /\ (Main.batches messages = [] <-> messages = []).
Proof.
  unfold Main.batches, Main.py_range.
  assert (0 < Main.BATCH_SIZE) as Hb by (unfold Main.BATCH_SIZE; lia).
  split_and!.
  - rewrite concat_slices. apply take_ge. by apply rounds_cover.
  - apply Forall_fmap, Forall_fmap, Forall_forall. intros k Hk.
    apply elem_of_seq in Hk as [_ Hk]. simpl in Hk.
    apply (rounds_needed _ _ _ Hb) in Hk.
    unfold Main.slice. simpl.
    rewrite length_take, length_drop. lia.
  - split.
    + intros Hnil. apply fmap_nil_inv, fmap_nil_inv in Hnil.
      destruct messages as [|x l]; [done|].
      pose proof (rounds_cover (length (x :: l)) _ Hb) as Hcover.
      destruct ((length (x :: l) + Main.BATCH_SIZE - 1) / Main.BATCH_SIZE);
        [simpl in Hcover; lia | done].
    + by intros ->.
Qed.

End Batches.

(** ** The engine on the sample rows *)

Section Runs.
Import Sample.

(** *** Runs of the model *)

(** String comparisons fold case on both sides. *)
Example contains_folds_case :
  _evaluate_condition ascii_lower read_decimal clock
    (RuleCondition.mk 1 "from" "contains" "GMAIL.COM" None)
    (Email.mk "m2" "test@gmail.com" None None None false None) (state [] [])
  = (Return true, state [] []).
Proof. reflexivity. Qed.

(** A missing subject is the empty string. *)
Example missing_subject_is_empty :
  _evaluate_condition ascii_lower read_decimal clock
    (RuleCondition.mk 1 "subject" "equals" "" None)
    (Email.mk "m2" "test@gmail.com" None None None false None) (state [] [])
  = (Return true, state [] []).
Proof. reflexivity. Qed.

(** One month is thirty days: a message received 45 days ago is older
    than one month, a message received 15 days ago is not.  The clock is
    read once. *)
Example month_is_thirty_days :
  let older_than_a_month := RuleCondition.mk 1 "received_date" "greater_than" "1" (Some "months") in
  _evaluate_condition ascii_lower read_decimal clock older_than_a_month order_mail (state [] [])
  = (Return true, set_clock_reads 1 (state [] []))
  /\ _evaluate_condition ascii_lower read_decimal clock older_than_a_month
       (Email.mk "m2" "a@b" None None (Some (Naive (30 * us_per_day))) false None)
       (state [] [])
     = (Return false, set_clock_reads 1 (state [] [])).
Proof. split; reflexivity. Qed.

(** A date that carries an offset, or no date, cannot be subtracted
    from [utcnow()]: the [TypeError] is caught and the condition is
    [False]. *)
Example aware_date_is_false :
  let within_a_day := RuleCondition.mk 1 "received_date" "less_than" "1" (Some "days") in
  _evaluate_condition ascii_lower read_decimal clock within_a_day
    (Email.mk "m2" "a@b" None None (Some (Aware (45 * us_per_day))) false None) (state [] [])
  = (Return false, set_clock_reads 1 (state [] []))
  /\ _evaluate_condition ascii_lower read_decimal clock within_a_day
       (Email.mk "m2" "a@b" None None None false None) (state [] [])
     = (Return false, set_clock_reads 1 (state [] [])).
Proof. split; reflexivity. Qed.

(** A threshold beyond the range of [timedelta] is not caught. *)
Example huge_threshold_overflows :
  _evaluate_condition ascii_lower read_decimal clock
    (RuleCondition.mk 1 "received_date" "less_than" "1000000000" (Some "days"))
    order_mail (state [] [])
  = (Raise OverflowError, state [] []).
Proof. reflexivity. Qed.

(** The Zomato rule on the order mail: one call to [mark_as_unread],
    the message becomes unread, one row is written. *)
Example zomato_end_to_end :
  let s' := snd (process_email ascii_lower read_decimal clock accepts (state [zomato] [])) in
  gmail_calls s' = [mark_as_unread "m1"]
  /\ Email.is_read (message s') = false
  /\ db_processed_emails s' = [ProcessedEmail.mk 1 "m1" "R1" (clock 0)].
Proof. repeat split. Qed.

(** *** The properties on the sample rows *)

(** C1 on the sample: the Zomato rule is applied by a first pass and
    skipped by a second pass that starts where the first one ended. *)
Lemma second_pass_skips_processed_rule_witness :
  let t := snd (process_email ascii_lower read_decimal clock accepts (state [zomato] [])) in
  (exists prev',
     _is_already_processed "m1" "R1" t = (Return (true, prev'), t))
  /\ process_rule ascii_lower read_decimal clock accepts zomato None t = (Return None, t)
  /\ length (records_for "m1" "R1"
               (db_processed_emails
                  (snd (process_email ascii_lower read_decimal clock accepts t)))) = 1.
Proof.
  intros t.
  apply (second_pass_skips_processed_rule ascii_lower read_decimal clock accepts
           (state [zomato] []) [] zomato [] None (state [zomato] []) ""
           (state [zomato] [])
           (snd (for_actions accepts (actions_of zomato (state [zomato] [])) None
                   (state [zomato] [])))
           t [] zomato [] None t); reflexivity.
Defined.

(** C2 on the sample: the first action of the filing rule is refused
    and its last one accepted, and the pair gets its row. *)
Lemma processed_iff_last_action_succeeded_witness :
  exists earlier_actions last_action earlier_flags sb last_flag s3,
    actions_of filing (state [filing] []) = earlier_actions ++ [last_action]
    /\ action_flags refuses_once earlier_actions (set_clock_reads 1 (state [filing] []))
       = (Return earlier_flags, sb)
    /\ execute_action refuses_once last_action sb = (Return last_flag, s3)
    /\ last_flag = match gmail_call_of "m1" last_action with
                   | Some c => refuses_once (gmail_calls sb) c
                   | None => false
                   end
    /\ (records_for "m1" "R3"
          (db_processed_emails
             (snd (process_email ascii_lower read_decimal clock refuses_once
                     (state [filing] [])))) <> []
        <-> last_flag = true).
Proof.
  apply (processed_iff_last_action_succeeded ascii_lower read_decimal clock refuses_once
           (state [filing] []) [] filing [] None (state [filing] []) ""
           (set_clock_reads 1 (state [filing] []))).
  - apply NoDup_singleton.
  - reflexivity.
  - reflexivity.
  - reflexivity.
  - reflexivity.
  - discriminate.
Defined.

(** C3 on the sample: three marks from a ledger of one row. *)
Lemma mark_as_processed_upsert_witness :
  at_most_one_per_pair
    (db_processed_emails
       (snd (mark_each clock [("m1", "R1"); ("m1", "R2"); ("m1", "R2")]
               (state [zomato] [row_R1])))).
Proof.
  apply (mark_as_processed_upsert clock
           [("m1", "R1"); ("m1", "R2"); ("m1", "R2")] (state [zomato] [row_R1])).
  intros g i. unfold records_for. simpl. rewrite filter_cons.
  destruct (decide _); simpl; lia.
Defined.

(** Against C4 without the gate on the last action: the ledger has a
    row for the message under the former identifier only, the rule
    matches under its new identifier, its single action is refused, and
    no row is inserted for the new identifier. *)
Lemma changed_identifier_refused_counterexample :
  let s := state [zomato_v2] [row_R1] in
  _is_already_processed "m1" "R1-v2" s = (Return (false, "R1"), s)
  /\ _evaluate_rule ascii_lower read_decimal clock zomato_v2 (conditions_of zomato_v2 s)
       order_mail s = (Return true, s)
  /\ fst (process_email ascii_lower read_decimal clock refuses s) = Return tt
  /\ records_for "m1" "R1-v2"
       (db_processed_emails (snd (process_email ascii_lower read_decimal clock refuses s)))
     = [].
Proof. repeat split. Qed.

(** C6 on the sample: three conditions whose results are [True],
    [False] and [True], the last one on the date, under a rule with
    predicate 'all' and under a rule with predicate 'any'. *)
Lemma evaluate_rule_all_any_witness :
  let mixed :=
    [ RuleCondition.mk 1 "from" "contains" "ZOMATO.com" None;
      RuleCondition.mk 1 "subject" "equals" "nothing" None;
      RuleCondition.mk 1 "received_date" "greater_than" "1" (Some "months") ] in
  let s := state [zomato; bare] [] in
  evaluate_each ascii_lower read_decimal clock mixed order_mail s
  = (Return [true; false; true], set_clock_reads 1 s)
  /\ _evaluate_rule ascii_lower read_decimal clock zomato mixed order_mail s
     = (Return false, set_clock_reads 1 s)
  /\ _evaluate_rule ascii_lower read_decimal clock bare mixed order_mail s
     = (Return true, set_clock_reads 1 s).
Proof.
  intros mixed s.
  destruct (evaluate_rule_all_any ascii_lower read_decimal clock zomato mixed
              order_mail s) as (Hall & _ & _); [discriminate|].
  destruct (evaluate_rule_all_any ascii_lower read_decimal clock bare mixed
              order_mail s) as (_ & Hany & _); [discriminate|].
  split; [reflexivity|]. split.
  - rewrite Hall; reflexivity.
  - rewrite Hany; reflexivity.
Defined.

(** C7 on the sample: a threshold of -1 days. *)
Lemma evaluate_date_condition_guard_witness :
  _evaluate_condition ascii_lower read_decimal clock negative_days order_mail
    (state [zomato] [])
  = (Return false, state [zomato] []).
Proof.
  apply (evaluate_date_condition_guard ascii_lower read_decimal clock negative_days
           (state [zomato] [])).
  - right. exists (-1)%Z. split; [reflexivity | lia].
  - reflexivity.
Defined.

(** C8 on the sample: the first action of the filing rule is refused,
    the second one is still called. *)
Lemma failed_action_does_not_stop_rule_witness :
  exists sa success' s',
    execute_action refuses_once (RuleAction.mk 3 "mark_as_read" None)
      (set_clock_reads 1 (state [filing] [])) = (Return false, sa)
    /\ message sa = order_mail
    /\ gmail_calls sa = [mark_as_read "m1"]
    /\ process_rule ascii_lower read_decimal clock refuses_once filing None
         (state [filing] []) = (Return (Some success'), s')
    /\ gmail_calls s' = gmail_calls sa ++ [move_message "m1" (Some "Archive")].
Proof.
  apply (failed_action_does_not_stop_rule ascii_lower read_decimal clock refuses_once
           filing None (state [filing] []) "" (set_clock_reads 1 (state [filing] []))
           [] (RuleAction.mk 3 "mark_as_read" None)
           [RuleAction.mk 3 "move_message" (Some "Archive")]
           None (set_clock_reads 1 (state [filing] [])) (mark_as_read "m1"));
    reflexivity.
Defined.

(** Against C9 for a rule that is not the first to run: the rule
    without actions matches in a pass in which an earlier rule has run
    an action; [success] is bound, the pass returns, and a row is
    written for the pair. *)
Lemma stale_success_counterexample :
  let s := state [zomato; bare] [] in
  let s' := snd (process_email ascii_lower read_decimal clock accepts s) in
  active_rules s = [zomato; bare]
  /\ actions_of bare s = []
  /\ _evaluate_rule ascii_lower read_decimal clock bare (conditions_of bare s) order_mail s
     = (Return true, s)
  /\ records_for "m1" "R2" (db_processed_emails s) = []
  /\ fst (process_email ascii_lower read_decimal clock accepts s) = Return tt
  /\ records_for "m1" "R2" (db_processed_emails s')
     = [ProcessedEmail.mk 2 "m1" "R2" (clock 1)].
Proof. repeat split. Qed.

(** C9 (amended) on the sample: the rule without actions is the first
    to match. *)
Lemma matching_rule_without_actions_raises_witness :
  process_email ascii_lower read_decimal clock accepts (state [bare] [])
  = (Raise UnboundLocalError, state [bare] []).
Proof.
  apply (matching_rule_without_actions_raises ascii_lower read_decimal clock accepts
           (state [bare] []) [] bare [] (state [bare] []) "" (state [bare] []));
    reflexivity.
Defined.

(** C10 on the sample: the predicate 'ANY' is read as 'any'. *)
Lemma evaluate_rule_not_all_is_any_witness :
  _evaluate_rule ascii_lower read_decimal clock filing
    (conditions_of filing (state [filing] [])) order_mail (state [filing] [])
  = (Return true, set_clock_reads 1 (state [filing] [])).
Proof.
  destruct (evaluate_rule_not_all_is_any ascii_lower read_decimal clock filing
              (conditions_of filing (state [filing] [])) order_mail (state [filing] []))
    as [Hany _].
  - discriminate.
  - discriminate.
  - rewrite Hany. reflexivity.
Defined.

(** *** The further properties on the sample rows *)

Lemma lower_ascii_idempotent c : lower_ascii (lower_ascii c) = lower_ascii c.
Proof. by destruct c as [[] [] [] [] [] [] [] []]. Qed.

Lemma ascii_lower_idempotent x : ascii_lower (ascii_lower x) = ascii_lower x.
Proof.
  induction x as [|c x IH]; [done|].
  simpl. by rewrite lower_ascii_idempotent, IH.
Qed.

Lemma next_id_fresh ids : SampleConfig.next_id ids ∉ ids.
Proof.
  assert (forall x, x ∈ ids -> (x <= foldr Z.max 0 ids)%Z) as Hmax.
  { induction ids as [|y ids IH]; intros x Hx.
    - by apply elem_of_nil in Hx.
    - apply elem_of_cons in Hx as [->|Hx]; simpl; [lia|].
      specialize (IH x Hx). lia. }
  intros Hin. apply Hmax in Hin. unfold SampleConfig.next_id in Hin. lia.
Qed.

Lemma paged_respects_max_results :
  GmailClient.respects_max_results SampleConfig.paged.
Proof.
  intros q r t srv page srv' Hr [= <- _]. simpl.
  rewrite length_take. destruct (Z.leb_spec r 1); lia.
Qed.

Lemma paged_makes_progress :
  GmailClient.pages_make_progress SampleConfig.paged.
Proof.
  intros q r t srv page srv' [= <- _]. simpl.
  destruct r as [r|]; [destruct (r <=? 1)%Z|];
    repeat (case_decide; simpl); done.
Qed.

(** X1 on the sample: the sender of the order mail contains
    'ZOMATO.com', lower-cased. *)
Lemma contains_iff_substring_witness :
  exists pre post,
    ascii_lower "noreply@zomato.com"
    = String.append pre (String.append (ascii_lower "ZOMATO.com") post).
Proof.
  destruct (contains_iff_substring ascii_lower
              (RuleCondition.mk 1 "from" "contains" "ZOMATO.com" None)
              "noreply@zomato.com") as [[Hsub _] _].
  - reflexivity.
  - apply Hsub. reflexivity.
Defined.

(** X3 on the sample: the condition with its value lower-cased, on the
    lower-cased sender. *)
Lemma string_condition_case_insensitive_witness :
  _evaluate_string_condition ascii_lower
    (RuleCondition.mk 1 "from" "contains" (ascii_lower "ZOMATO.com") None)
    (ascii_lower "NoReply@Zomato.COM")
  = _evaluate_string_condition ascii_lower
      (RuleCondition.mk 1 "from" "contains" "ZOMATO.com" None) "NoReply@Zomato.COM".
Proof.
  destruct (string_condition_case_insensitive ascii_lower
              (RuleCondition.mk 1 "from" "contains" "ZOMATO.com" None)
              "NoReply@Zomato.COM") as [_ Hlower].
  - apply ascii_lower_idempotent.
  - exact Hlower.
Defined.

(** X4 on the sample: a condition on the subject. *)
Lemma string_condition_is_pure_witness :
  _evaluate_condition ascii_lower read_decimal clock
    (RuleCondition.mk 2 "subject" "contains" "order" None) order_mail (state [bare] [])
  = (Return true, state [bare] []).
Proof.
  destruct (string_condition_is_pure ascii_lower read_decimal clock
              (RuleCondition.mk 2 "subject" "contains" "order" None) order_mail
              (state [bare] [])) as [Hrun _].
  - discriminate.
  - rewrite Hrun. reflexivity.
Defined.


(** X6 on the sample: one month and thirty days. *)
Lemma months_are_thirty_days_witness :
  _evaluate_date_condition read_decimal clock
    (RuleCondition.mk 3 "received_date" "greater_than" "30" (Some "days"))
    (Some (Naive 0)) (state [] [])
  = _evaluate_date_condition read_decimal clock
      (RuleCondition.mk 3 "received_date" "greater_than" "1" (Some "months"))
      (Some (Naive 0)) (state [] []).
Proof.
  apply (months_are_thirty_days read_decimal clock
           (RuleCondition.mk 3 "received_date" "greater_than" "1" (Some "months"))
           (RuleCondition.mk 3 "received_date" "greater_than" "30" (Some "days"))
           (Some (Naive 0)) (state [] []) 1%Z).
  - reflexivity.
  - reflexivity.
  - reflexivity.
  - discriminate.
  - reflexivity.
Defined.

(** X8 on the sample: older than sixty days, hence older than a
    month. *)
Lemma date_threshold_monotone_witness :
  _evaluate_date_condition read_decimal (fun k => (75 * us_per_day)%Z)
    (RuleCondition.mk 3 "received_date" "greater_than" "30" (Some "days"))
    (Some (Naive 0)) (state [] [])
  = (Return true, set_clock_reads 1 (state [] [])).
Proof.
  destruct (date_threshold_monotone read_decimal (fun k => (75 * us_per_day)%Z)
              (RuleCondition.mk 3 "received_date" "greater_than" "30" (Some "days"))
              (RuleCondition.mk 3 "received_date" "greater_than" "60" (Some "days"))
              (Some (Naive 0)) (state [] []) 30%Z 60%Z
              (set_clock_reads 1 (state [] []))) as [_ Hgreater].
  - reflexivity.
  - reflexivity.
  - lia.
  - vm_compute. discriminate.
  - reflexivity.
  - reflexivity.
  - apply Hgreater; reflexivity.
Defined.

(** X10 on the sample: three conditions that all hold of the order
    mail, the last one on the date, matched under 'all', then under the
    predicate of another rule. *)
Lemma all_match_implies_any_match_witness :
  let holding :=
    [ RuleCondition.mk 1 "from" "contains" "ZOMATO.com" None;
      RuleCondition.mk 1 "subject" "contains" "order" None;
      RuleCondition.mk 1 "received_date" "greater_than" "1" (Some "months") ] in
  let s := state [zomato; bare] [] in
  _evaluate_rule ascii_lower read_decimal clock zomato holding order_mail s
  = (Return true, set_clock_reads 1 s)
  /\ _evaluate_rule ascii_lower read_decimal clock bare holding order_mail s
     = (Return true, set_clock_reads 1 s).
Proof.
  intros holding s. split; [reflexivity|].
  apply (all_match_implies_any_match ascii_lower read_decimal clock zomato bare
           holding order_mail s (set_clock_reads 1 s)).
  - reflexivity.
  - discriminate.
  - reflexivity.
Defined.

(** X11 on the sample: two string conditions, in either order. *)
Lemma string_rule_is_pure_and_order_free_witness :
  let first := RuleCondition.mk 1 "from" "contains" "ZOMATO.com" None in
  let second := RuleCondition.mk 1 "subject" "equals" "nothing" None in
  _evaluate_rule ascii_lower read_decimal clock zomato [second; first] order_mail
    (state [zomato] [])
  = _evaluate_rule ascii_lower read_decimal clock zomato [first; second] order_mail
      (state [zomato] []).
Proof.
  intros first second.
  destruct (string_rule_is_pure_and_order_free ascii_lower read_decimal clock zomato
              [first; second] order_mail (state [zomato] [])) as [_ Horder].
  - repeat constructor; discriminate.
  - apply Horder. apply Permutation_swap.
Defined.

(** X15 on the sample: the single active rule has its row. *)
Lemma process_email_all_processed_witness :
  process_email ascii_lower read_decimal clock accepts (state [zomato] [row_R1])
  = (Return tt, state [zomato] [row_R1]).
Proof.
  apply (process_email_all_processed ascii_lower read_decimal clock accepts
           (state [zomato] [row_R1])).
  repeat constructor. discriminate.
Defined.

(** X18 on the sample: the two rules of the sample configuration,
    loaded over the sample tables. *)
Lemma load_rules_round_trip_witness :
  exists s',
    load_rules SampleConfig.next_id SampleConfig.rules_config (state [zomato; bare] [row_R1])
    = Synced s'
    /\ Forall2 (row_of s') (db_rules s') (Schema.rules SampleConfig.rules_config)
    /\ active_rules s' = db_rules s'
    /\ NoDup (Rule.identifier <$> db_rules s')
    /\ db_processed_emails s' = [row_R1]
    /\ gmail_calls s' = []
    /\ message s' = order_mail.
Proof.
  apply (load_rules_round_trip SampleConfig.next_id SampleConfig.rules_config
           (state [zomato; bare] [row_R1])).
  - apply next_id_fresh.
  - simpl. repeat constructor; [|by intros ?%elem_of_nil].
    intros Hin%list_elem_of_singleton. discriminate.
Defined.

(** X20 on the sample: the rows of the loaded sample configuration. *)
Lemma loaded_rows_are_known_witness :
  let s' := match load_rules SampleConfig.next_id SampleConfig.rules_config (state [] [])
            with Synced s' => s' | IntegrityError s' => s' end in
  Forall (fun r => Rule.active r = true
                   /\ (Rule.predicate r = "all" \/ Rule.predicate r = "any"))
         (db_rules s')
  /\ Forall (fun a => (forall g, is_Some (gmail_call_of g a))
                      /\ (RuleAction.action_type a = "move_message"
                          \/ RuleAction.action_value a = None))
            (db_rule_actions s')
  /\ Forall (fun c => RuleCondition.field c
                      ∈ ["from"; "subject"; "message"; "received_date"])
            (db_rule_conditions s').
Proof.
  intros s'.
  apply (loaded_rows_are_known SampleConfig.next_id SampleConfig.rules_config
           (state [] []) s').
  reflexivity.
Defined.

(** X21 on the sample: a sender 'less_than' two days. *)
Lemma mismatched_condition_never_holds_witness :
  _evaluate_condition ascii_lower read_decimal clock
    (condition_row 1 SampleConfig.odd_condition) order_mail (state [] [])
  = (Return false, state [] []).
Proof.
  destruct (mismatched_condition_never_holds ascii_lower read_decimal clock
              SampleConfig.odd_condition 1%Z order_mail (state [] [])) as [_ Hfalse].
  - exact I.
  - apply Hfalse. discriminate.
Defined.

(** X22 on the sample: the sample message has a 'Date' header that is
    read; its email has a date with an offset. *)
Lemma message_to_email_date_witness :
  exists email headers,
    message_to_email clock SampleConfig.parse_date SampleConfig.api_message (state [] [])
    = (Return (Some email), state [] [])
    /\ (GmailClient.payload SampleConfig.api_message ≫= GmailClient.headers) = Some headers
    /\ Email.received_date email = Some (Aware 0).
Proof.
  destruct (message_to_email_date ascii_lower read_decimal clock SampleConfig.parse_date
              SampleConfig.api_message (state [] [])
              (Email.mk "m1" "noreply@zomato.com" (Some "Order confirmed")
                 (Some "aGVsbG8=") (Some (Aware 0)) false (Some "INBOX"))
              (state [] [])) as (headers & Hheaders & Hdate).
  - reflexivity.
  - eexists _, headers. split; [reflexivity|]. split; [exact Hheaders|]. reflexivity.
Defined.

(** X27 on the sample: three of the five messages of the paged
    mailbox, in two rounds; the second page is asked with a [maxResults]
    of one. *)
Lemma list_all_messages_at_most_max_total_witness :
  GmailClient.list_all_messages SampleConfig.paged 3 None (Some 3%Z) tt
  = (Some ["m1"; "m2"; "m3"], tt)
  /\ fst (GmailClient.list_all_messages SampleConfig.paged 1 None (Some 3%Z) tt) = None
  /\ exists ms srv',
       (forall fuel, Z.to_nat 3 <= fuel ->
          GmailClient.list_all_messages SampleConfig.paged fuel None (Some 3%Z) tt
          = (Some ms, srv'))
       /\ (Z.of_nat (length ms) <= 3)%Z.
Proof.
  split; [reflexivity|]. split; [reflexivity|].
  apply (list_all_messages_at_most_max_total SampleConfig.paged None 3%Z tt).
  - apply paged_respects_max_results.
  - apply paged_makes_progress.
  - lia.
Defined.

(** X28 on the sample: the five messages of the paged mailbox take
    three rounds, two of which end on a page that names a next page. *)
Lemma list_all_messages_returns_witness :
  GmailClient.list_all_messages SampleConfig.paged 3 None (Some 5%Z) tt
  = (Some ["m1"; "m2"; "m3"; "m4"; "m5"], tt)
  /\ fst (GmailClient.list_all_messages SampleConfig.paged 2 None (Some 5%Z) tt) = None
  /\ exists ms,
       fst (GmailClient.list_all_messages SampleConfig.paged (Z.to_nat 5) None
              (Some 5%Z) tt)
       = Some ms.
Proof.
  split; [reflexivity|]. split; [reflexivity|].
  apply (list_all_messages_returns SampleConfig.paged None 5%Z tt).
  - apply paged_makes_progress.
  - lia.
Defined.

(** X29 on the sample: a limit of -5. *)
Lemma list_all_messages_non_positive_limit_witness :
  GmailClient.list_all_messages SampleConfig.one_page 3 None (Some (-5)%Z) tt
  = (Some [], tt).
Proof.
  apply (list_all_messages_non_positive_limit SampleConfig.one_page 2 None (-5)%Z tt).
  lia.
Defined.

End Runs.
